(** * Improvised memory manager: best fit, power-of-two sizing, compaction

    A shallow embedding of [backend/buddy_allocator.py].

    Python objects are shared: [self.blocks] is a list of references to
    [MemoryBlock] objects and [self.process_map] maps a process name to one of
    the very same objects.  The embedding therefore keeps an object store
    ([objects], indexed by reference) next to the two containers, and every
    in-place update of a block ([block.is_free = False],
    [current.size += ...]) is an update of the store. *)

From Stdlib Require Import QArith_base.
From stdpp Require Import gmap strings list pretty.

Local Open Scope Z_scope.

(** ** Data model *)

(** [class MemoryBlock]: [process_name] is [None] unless a name was given. *)
Record MemoryBlock := Block {
  start : Z;
  size : Z;
  is_free : bool;
  process_name : option string
}.

(** The [end] property of a block. *)
Definition block_end (b : MemoryBlock) : Z := start b + size b.

#[global] Instance MemoryBlock_eq_dec : EqDecision MemoryBlock.
Proof. solve_decision. Defined.

#[global] Instance MemoryBlock_inhabited : Inhabited MemoryBlock :=
  populate (Block 0 0 true None).

(** [class ImprovisedMemoryManager].  A reference is an index into the object
    store; a dictionary key is whatever [process_name] can hold. *)
Record Manager := Mgr {
  total_memory : Z;
  objects : list MemoryBlock;
  blocks : list nat;
  process_map : gmap (option string) nat
}.

(** The block sequence as the caller sees it: every reference of
    [self.blocks] read through the store. *)
Definition layout_of (h : list MemoryBlock) (refs : list nat) : list MemoryBlock :=
  (λ r, h !!! r) <$> refs.

Definition layout (s : Manager) : list MemoryBlock :=
  layout_of (objects s) (blocks s).

(** ** Construction and reset *)

(** [_initialize_memory]: one fresh free block, a fresh empty dictionary. *)
Definition _initialize_memory (s : Manager) : Manager :=
  {| total_memory := total_memory s;
     objects := objects s ++ [Block 0 (total_memory s) true None];
     blocks := [length (objects s)];
     process_map := ∅ |}.

(** [__init__(total_memory)]. *)
Definition __init__ (total : Z) : Manager :=
  _initialize_memory
    {| total_memory := total; objects := []; blocks := []; process_map := ∅ |}.

(** Truth value of the optional integer argument of [reset]:
    [None] and [0] are both false. *)
Definition truthy (new_total_memory : option Z) : bool :=
  match new_total_memory with
  | Some n => negb (n =? 0)
  | None => false
  end.

(** [reset(new_total_memory=None)]. *)
Definition reset (s : Manager) (new_total_memory : option Z) : Manager :=
  let s1 :=
    if truthy new_total_memory
    then {| total_memory := default 0 new_total_memory;
            objects := objects s; blocks := blocks s;
            process_map := process_map s |}
    else s in
  _initialize_memory s1.

(** ** Conversion of an integer to a binary64 float

    [math.log2] converts its integer argument to a C double before taking the
    logarithm.  The conversion rounds to 53 significant bits, ties to even;
    integers below [2^53] are exact.  (Integers of 1024 bits and more take
    another path in [math.log2]; the statements below that need the
    conversion stay under that bound.) *)
Definition binary64_of_int (n : Z) : Z :=
  let e := Z.log2 n - 52 in
  if e <=? 0 then n
  else
    let q := n / 2 ^ e in
    let r := n mod 2 ^ e in
    let half := 2 ^ (e - 1) in
    if r <? half then q * 2 ^ e
    else if half <? r then (q + 1) * 2 ^ e
    else if Z.even q then q * 2 ^ e else (q + 1) * 2 ^ e.

(** One function with the shape of [math.ceil(math.log2(n))]: convert, then
    take the logarithm exactly.  It is not the C library's logarithm, whose
    result is itself rounded to a double: just above a large power of two
    (from [2^49 + 1] on) the library's result can fall on the integer below,
    where this function still rounds up.  It serves only as the concrete
    instance at which general statements are exercised, at sizes far below
    that range or at sizes where the conversion already loses the
    difference. *)
Definition log2_ceil_exact (n : Z) : Z := Z.log2_up (binary64_of_int n).

(** ** Best-fit search *)

(** [x < best_size] where [best_size] starts as [float('inf')] ([None]). *)
Definition below (x : Z) (best_size : option Z) : bool :=
  match best_size with
  | None => true
  | Some b => x <? b
  end.

(** The [for idx, block in enumerate(self.blocks)] loop of [_find_best_fit];
    [refs] is what remains to be scanned and [idx] its first index. *)
Fixpoint best_fit_loop (h : list MemoryBlock) (sz : Z) (refs : list nat)
    (idx : nat) (best_idx : option nat) (best_size : option Z) : option nat :=
  match refs with
  | [] => best_idx
  | r :: rest =>
      let block := h !!! r in
      if is_free block && (sz <=? size block) then
        if below (size block) best_size
        then best_fit_loop h sz rest (S idx) (Some idx) (Some (size block))
        else best_fit_loop h sz rest (S idx) best_idx best_size
      else best_fit_loop h sz rest (S idx) best_idx best_size
  end.

Definition _find_best_fit (s : Manager) (sz : Z) : option nat :=
  best_fit_loop (objects s) sz (blocks s) 0%nat None None.

(** [list.insert(i, x)]: [x] goes before position [i], at the end when [i]
    is past the end. *)
Definition list_insert_at {A} (i : nat) (x : A) (l : list A) : list A :=
  take i l ++ x :: drop i l.

(** ** Deallocation helpers *)

(** The [for block in self.blocks] loop of [deallocate]: the first block that
    is allocated to [name] is freed in place, then the loop breaks. *)
Fixpoint free_first (h : list MemoryBlock) (name : string) (refs : list nat)
    : list MemoryBlock :=
  match refs with
  | [] => h
  | r :: rest =>
      let block := h !!! r in
      if negb (is_free block) && bool_decide (process_name block = Some name)
      then <[r := Block (start block) (size block) true None]> h
      else free_first h name rest
  end.

(** [current.size += other.size]. *)
Definition grow (current : MemoryBlock) (by_size : Z) : MemoryBlock :=
  Block (start current) (size current + by_size) (is_free current)
        (process_name current).

(** The inner [while j < len(self.blocks) and self.blocks[j].is_free] loop of
    [_merge_free_blocks]; [rest] is [self.blocks[j:]].  Returns the store and
    [self.blocks[j:]] for the [j] at which the loop stops. *)
Fixpoint absorb (h : list MemoryBlock) (current : nat) (rest : list nat)
    : list MemoryBlock * list nat :=
  match rest with
  | [] => (h, [])
  | j :: rest' =>
      if is_free (h !!! j)
      then absorb (<[current := grow (h !!! current) (size (h !!! j))]> h)
                  current rest'
      else (h, rest)
  end.

(** The outer [while i < len(self.blocks)] loop; [todo] is [self.blocks[i:]].
    Every iteration consumes at least one block, so [length todo] iterations
    are enough: [fuel] counts them. *)
Fixpoint merge_loop (fuel : nat) (h : list MemoryBlock) (todo merged : list nat)
    : list MemoryBlock * list nat :=
  match fuel, todo with
  | S fuel', current :: rest =>
      if is_free (h !!! current) then
        let '(h', rest') := absorb h current rest in
        merge_loop fuel' h' rest' (merged ++ [current])
      else merge_loop fuel' h rest (merged ++ [current])
  | _, _ => (h, merged)
  end.

(** [_merge_free_blocks]. *)
Definition _merge_free_blocks (s : Manager) : Manager :=
  if (length (blocks s) <=? 1)%nat then s
  else
    let '(h, merged) := merge_loop (length (blocks s)) (objects s) (blocks s) [] in
    {| total_memory := total_memory s; objects := h; blocks := merged;
       process_map := process_map s |}.

(** [deallocate(process_name)]. *)
Definition deallocate (s : Manager) (name : string) : (bool * string) * Manager :=
  match process_map s !! Some name with
  | None => ((false, "Process '" +:+ name +:+ "' not found"), s)
  | Some _ =>
      let s1 := {| total_memory := total_memory s;
                   objects := free_first (objects s) name (blocks s);
                   blocks := blocks s;
                   process_map := delete (Some name) (process_map s) |} in
      ((true, "Process '" +:+ name +:+ "' deallocated"), _merge_free_blocks s1)
  end.

(** ** Compaction *)

(** [[b for b in self.blocks if not b.is_free]]. *)
Definition allocated_refs (h : list MemoryBlock) (refs : list nat) : list nat :=
  filter (λ r, is_free (h !!! r) = false) refs.

(** The [for block in allocated_blocks] loop of [compact]. *)
Fixpoint relocate (h : list MemoryBlock) (pm : gmap (option string) nat)
    (allocated : list nat) (current_address : Z) (new_blocks : list nat)
    : list MemoryBlock * gmap (option string) nat * list nat * Z :=
  match allocated with
  | [] => (h, pm, new_blocks, current_address)
  | r :: rest =>
      let block := h !!! r in
      let new_block := Block current_address (size block) false (process_name block) in
      relocate (h ++ [new_block]) (<[process_name block := length h]> pm) rest
               (current_address + size block) (new_blocks ++ [length h])
  end.

(** [compact()]. *)
Definition compact (s : Manager) : (bool * string * Z) * Manager :=
  let allocated_blocks := allocated_refs (objects s) (blocks s) in
  match allocated_blocks with
  | [] => ((false, "No allocated blocks to compact", 0), s)
  | _ :: _ =>
      let '(h, pm, new_blocks, current_address) :=
        relocate (objects s) (process_map s) allocated_blocks 0 [] in
      let free_space := total_memory s - current_address in
      let s' :=
        if 0 <? free_space
        then {| total_memory := total_memory s;
                objects := h ++ [Block current_address free_space true None];
                blocks := new_blocks ++ [length h];
                process_map := pm |}
        else {| total_memory := total_memory s; objects := h;
                blocks := new_blocks; process_map := pm |} in
      ((true, "Memory compacted successfully",
        Z.of_nat (length allocated_blocks)), s')
  end.

(** ** Derived metrics *)

Definition sum_sizes (bs : list MemoryBlock) : Z := foldr (λ b acc, size b + acc) 0 bs.

Definition get_used_memory (s : Manager) : Z :=
  sum_sizes (filter (λ b, is_free b = false) (layout s)).

Definition get_free_memory (s : Manager) : Z :=
  sum_sizes (filter (λ b, is_free b = true) (layout s)).

(** [get_fragmentation_ratio].  The quotient of the two lengths is returned as
    the exact rational; Python rounds it to the nearest float. *)
Definition get_fragmentation_ratio (s : Manager) : Q * Manager :=
  let free_blocks := filter (λ b, is_free b = true) (layout s) in
  if (length free_blocks <=? 1)%nat then (0%Q, s)
  else (Qmake (Z.of_nat (length free_blocks) - 1) (Pos.of_nat (length (blocks s))), s).

(** ** Allocation

    [math.ceil(math.log2(n))] is computed by the C library on binary64
    floats; it is not part of this program and is taken as a parameter
    [log2_ceil] of everything that allocates. *)

Section WithLog2.

Variable log2_ceil : Z → Z.

(** [_round_to_power_of_2].  ([2 ** k] is an integer as long as [k] is not
    negative, which holds for the logarithm of any [size >= 1].) *)
Definition _round_to_power_of_2 (sz : Z) : Z :=
  if sz <=? 0 then 1 else 2 ^ log2_ceil sz.

(** [self._round_to_power_of_2(size) if use_buddy else size]. *)
Definition actual_size (sz : Z) (use_buddy : bool) : Z :=
  if use_buddy then _round_to_power_of_2 sz else sz.

(** The body of [allocate] once [best_idx] is known: split or take over the
    chosen block, then register it. *)
Definition place (s : Manager) (name : string) (asz : Z) (best_idx : nat) : Manager :=
  let r := blocks s !!! best_idx in
  let block := objects s !!! r in
  let s1 :=
    if asz <? size block then
      let allocated_block := Block (start block) asz false (Some name) in
      let remaining_block :=
        Block (start block + asz) (size block - asz) true None in
      let ra := length (objects s) in
      {| total_memory := total_memory s;
         objects := objects s ++ [allocated_block; remaining_block];
         blocks := list_insert_at (S best_idx) (S ra) (<[best_idx := ra]> (blocks s));
         process_map := process_map s |}
    else
      {| total_memory := total_memory s;
         objects := <[r := Block (start block) (size block) false (Some name)]> (objects s);
         blocks := blocks s;
         process_map := process_map s |} in
  {| total_memory := total_memory s1; objects := objects s1; blocks := blocks s1;
     process_map := <[Some name := blocks s1 !!! best_idx]> (process_map s1) |}.

(** [allocate(process_name, size, use_buddy=True)]. *)
Definition allocate (s : Manager) (name : string) (sz : Z) (use_buddy : bool)
    : (bool * string * option Z) * Manager :=
  match process_map s !! Some name with
  | Some _ => ((false, "Process '" +:+ name +:+ "' already allocated", None), s)
  | None =>
      let asz := actual_size sz use_buddy in
      match _find_best_fit s asz with
      | None => ((false, "No suitable free block found. Try compaction.", None), s)
      | Some best_idx =>
          let start_address := start (objects s !!! (blocks s !!! best_idx)) in
          ((true, "Process '" +:+ name +:+ "' allocated " +:+ pretty asz +:+ "KB",
            Some start_address),
           place s name asz best_idx)
      end
  end.

(** ** Calls and reachable states *)

Inductive Call :=
  | Allocate (name : string) (sz : Z) (use_buddy : bool)
  | Deallocate (name : string)
  | Compact
  | Reset (new_total_memory : option Z).

(** The state a call leaves behind, whatever it returns. *)
Definition run (s : Manager) (c : Call) : Manager :=
  match c with
  | Allocate name sz use_buddy => (allocate s name sz use_buddy).2
  | Deallocate name => (deallocate s name).2
  | Compact => (compact s).2
  | Reset n => reset s n
  end.

Inductive reachable : Manager → Prop :=
  | reachable_init total : reachable (__init__ total)
  | reachable_run s c : reachable s → reachable (run s c).

End WithLog2.

(** ** The rounding rule as the specification words it

    With rounding, the smallest power of two that is at least the request,
    and 1 for a request that is not positive; without rounding, the request
    itself.  [actual_size] above is what the program computes; this is what
    the rule asks for. *)
Definition rounded_request_size (requested : Z) (use_rounding : bool) : Z :=
  if use_rounding
  then (if requested <=? 0 then 1 else 2 ^ Z.log2_up requested)
  else requested.

(** ** Properties of binary64 logarithms that the program relies on

    What is known of the parameter: [math.log2] sees its integer argument
    only through the binary64 conversion, and the logarithm of an exact power
    of two is exact. *)
Definition through_binary64 (f : Z → Z) : Prop :=
  ∃ g : Z → Z, ∀ n, 0 < n < 2 ^ 1024 → f n = g (binary64_of_int n).

Definition exact_on_powers (f : Z → Z) : Prop :=
  ∀ k, 0 ≤ k < 1024 → f (2 ^ k) = k.

(** ** The block-list invariant *)

(** Blocks laid end to end from address [a] up to [t], each of positive size. *)
Fixpoint chain (a : Z) (bs : list MemoryBlock) (t : Z) : Prop :=
  match bs with
  | [] => a = t
  | b :: rest => start b = a ∧ 0 < size b ∧ chain (block_end b) rest t
  end.

(** No two neighbours are both free. *)
Fixpoint coalesced (bs : list MemoryBlock) : Prop :=
  match bs with
  | b :: (b' :: _) as rest => ¬ (is_free b = true ∧ is_free b' = true) ∧ coalesced rest
  | _ => True
  end.

(** The invariant in the words of the specification. *)
Record partitions (bs : list MemoryBlock) (total : Z) : Prop := {
  part_ascending : ∀ i j bi bj,
    bs !! i = Some bi → bs !! j = Some bj → (i < j)%nat → start bi < start bj;
  part_adjacent : ∀ i b b',
    bs !! i = Some b → bs !! S i = Some b' → start b' = block_end b;
  part_first : start <$> head bs = Some 0;
  part_last : block_end <$> last bs = Some total;
  part_positive : ∀ b, b ∈ bs → 0 < size b
}.

Definition no_adjacent_free (bs : list MemoryBlock) : Prop :=
  ∀ i b b', bs !! i = Some b → bs !! S i = Some b' →
    ¬ (is_free b = true ∧ is_free b' = true).

Definition block_invariant (s : Manager) : Prop :=
  partitions (layout s) (total_memory s) ∧ no_adjacent_free (layout s).

(** ** Consistency of the registry with the block sequence *)

(** References are indices of live objects and no block is listed twice. *)
Definition well_formed (s : Manager) : Prop :=
  NoDup (blocks s) ∧ Forall (λ r, (r < length (objects s))%nat) (blocks s).

(** The registry in the words of the specification: its keys are the owners
    of the allocated blocks, each key refers to the block that carries it,
    that block is the only one with this owner, free blocks have no owner. *)
Record registry_consistent (s : Manager) : Prop := {
  reg_keys : ∀ k, is_Some (process_map s !! k) ↔
    ∃ b, b ∈ layout s ∧ is_free b = false ∧ process_name b = k;
  reg_refers : ∀ k r, process_map s !! k = Some r →
    r ∈ blocks s ∧ is_free (objects s !!! r) = false ∧
    process_name (objects s !!! r) = k;
  reg_unique : ∀ i j bi bj,
    layout s !! i = Some bi → layout s !! j = Some bj →
    is_free bi = false → is_free bj = false →
    process_name bi = process_name bj → i = j;
  reg_free : ∀ b, b ∈ layout s → is_free b = true → process_name b = None;
  reg_named : ∀ b, b ∈ layout s → is_free b = false → is_Some (process_name b)
}.

(** ** The operations on the layout alone

    What each operation does to the block sequence once references are read
    away; the lemmas below connect them with the code. *)

(** Freeing the first block allocated to [name]. *)
Fixpoint free_first_of (name : string) (bs : list MemoryBlock) : list MemoryBlock :=
  match bs with
  | [] => []
  | b :: rest =>
      if negb (is_free b) && bool_decide (process_name b = Some name)
      then Block (start b) (size b) true None :: rest
      else b :: free_first_of name rest
  end.

(** Collapsing every run of free blocks into its first block. *)
Fixpoint coalesce (bs : list MemoryBlock) : list MemoryBlock :=
  match bs with
  | [] => []
  | b :: rest =>
      match coalesce rest with
      | c :: out => if is_free b && is_free c then grow b (size c) :: out
                    else b :: c :: out
      | [] => [b]
      end
  end.

(** Placing blocks one after the other from [a], keeping size and owner. *)
Fixpoint repack (a : Z) (bs : list MemoryBlock) : list MemoryBlock :=
  match bs with
  | [] => []
  | b :: rest => Block a (size b) false (process_name b) :: repack (a + size b) rest
  end.

(** The number of free blocks, counted one by one. *)
Fixpoint count_free (bs : list MemoryBlock) : nat :=
  match bs with
  | [] => 0
  | b :: rest => ((if is_free b then 1 else 0) + count_free rest)%nat
  end.

(** A block is a candidate for a request of [sz] units. *)
Definition fits (sz : Z) (b : MemoryBlock) : Prop :=
  is_free b = true ∧ sz ≤ size b.

(** Outcome of a call: the success flag and the message of the returned
    tuple ([reset] returns nothing and cannot fail). *)
Definition succeeded (log2_ceil : Z → Z) (s : Manager) (c : Call) : bool :=
  match c with
  | Allocate name sz use_buddy => (allocate log2_ceil s name sz use_buddy).1.1.1
  | Deallocate name => (deallocate s name).1.1
  | Compact => (compact s).1.1.1
  | Reset _ => true
  end.

Definition message (log2_ceil : Z → Z) (s : Manager) (c : Call) : string :=
  match c with
  | Allocate name sz use_buddy => (allocate log2_ceil s name sz use_buddy).1.1.2
  | Deallocate name => (deallocate s name).1.2
  | Compact => (compact s).1.1.2
  | Reset _ => ""
  end.

(** Calls with sensible arguments: a positive reserved size, and a capacity
    that is positive when one is given ([0] counts as not given). *)
Definition sensible (log2_ceil : Z → Z) (c : Call) : Prop :=
  match c with
  | Allocate _ sz use_buddy => 0 < actual_size log2_ceil sz use_buddy
  | Reset (Some n) => 0 ≤ n
  | _ => True
  end.

(** States reached from a positive capacity through sensible calls. *)
Inductive reachable_sensibly (log2_ceil : Z → Z) : Manager → Prop :=
  | sensibly_init total : 0 < total → reachable_sensibly log2_ceil (__init__ total)
  | sensibly_run s c :
      reachable_sensibly log2_ceil s → sensible log2_ceil c →
      reachable_sensibly log2_ceil (run log2_ceil s c).

(** The block at index [i] is the best fit for [sz]: it fits, no fitting
    block is smaller, and no fitting block of the same size comes earlier. *)
Definition best_candidate (sz : Z) (bs : list MemoryBlock) (i : nat) (b : MemoryBlock) : Prop :=
  bs !! i = Some b ∧ fits sz b ∧
  ∀ j b', bs !! j = Some b' → fits sz b' →
    size b ≤ size b' ∧ (size b' = size b → (i ≤ j)%nat).

(** What the search loop knows after scanning the blocks [bs]. *)
Definition search_state (sz : Z) (bs : list MemoryBlock)
    (best_idx : option nat) (best_size : option Z) : Prop :=
  match best_idx with
  | None => best_size = None ∧ ∀ b, b ∈ bs → ¬ fits sz b
  | Some i => ∃ b, best_candidate sz bs i b ∧ best_size = Some (size b)
  end.

(** The blocks that replace the chosen block [b] in the layout. *)
Definition pieces (name : string) (asz : Z) (b : MemoryBlock) : list MemoryBlock :=
  if decide (size b = asz) then [Block (start b) asz false (Some name)]
  else [Block (start b) asz false (Some name);
        Block (start b + asz) (size b - asz) true None].

(** A block that [deallocate] looks for. *)
Definition owned_by (name : string) (b : MemoryBlock) : Prop :=
  is_free b = false ∧ process_name b = Some name.

(** How the store [h'] and the list [out] that the merging loop returns
    relate to the store [h] and the list [todo] it was given. *)
Record merge_result (h : list MemoryBlock) (todo : list nat)
    (h' : list MemoryBlock) (out : list nat) : Prop := {
  mr_layout : layout_of h' out = coalesce (layout_of h todo);
  mr_length : length h' = length h;
  mr_sublist : sublist out todo;
  mr_flags : ∀ r, is_free (h' !!! r) = is_free (h !!! r) ∧
                  process_name (h' !!! r) = process_name (h !!! r);
  mr_allocated : ∀ r, is_free (h !!! r) = false → h' !!! r = h !!! r;
  mr_outside : ∀ r, r ∉ todo → h' !!! r = h !!! r;
  mr_kept : ∀ r, r ∈ todo → is_free (h !!! r) = false → r ∈ out
}.

(** The dictionary writes of the compaction loop: the names in order, the
    new references counting up from [r]. *)
Fixpoint register_all (pm : gmap (option string) nat)
    (names : list (option string)) (r : nat) : gmap (option string) nat :=
  match names with
  | [] => pm
  | k :: rest => register_all (<[k := r]> pm) rest (S r)
  end.

(** The link between registry and blocks, reference by reference. *)
Definition linked (s : Manager) : Prop :=
  (∀ k r, process_map s !! k = Some r →
     r ∈ blocks s ∧ is_free (objects s !!! r) = false ∧
     process_name (objects s !!! r) = k) ∧
  (∀ r, r ∈ blocks s → is_free (objects s !!! r) = false →
     process_map s !! process_name (objects s !!! r) = Some r ∧
     is_Some (process_name (objects s !!! r))) ∧
  (∀ r, r ∈ blocks s → is_free (objects s !!! r) = true →
     process_name (objects s !!! r) = None).

(** ** Further parts of the program *)

(** The [active_processes] entry of [get_status]: [len(self.process_map)]. *)
Definition active_processes (s : Manager) : nat := base.size (process_map s).

(** The number of allocated blocks, counted one by one. *)
Fixpoint count_allocated (bs : list MemoryBlock) : nat :=
  match bs with
  | [] => 0
  | b :: rest => ((if is_free b then 0 else 1) + count_allocated rest)%nat
  end.

(** The sums that [get_used_memory] and [get_free_memory] take, on a layout. *)
Definition used_of (bs : list MemoryBlock) : Z :=
  sum_sizes (filter (λ b, is_free b = false) bs).

Definition free_of (bs : list MemoryBlock) : Z :=
  sum_sizes (filter (λ b, is_free b = true) bs).

(** *** [analytics/compare_policies.py]: [simulate_workload] *)

(** An entry of the workload: [('allocate', name, size)],
    [('deallocate', name, None)], [('compact', None, None)], or a tuple with
    any other tag, for which the loop does nothing but record. *)
Inductive Operation :=
  | op_allocate (name : string) (sz : Z)
  | op_deallocate (name : string)
  | op_compact
  | op_other (op_type : string).

(** The [stats] dictionary.  The fragmentation series holds the ratio times
    100 as an exact rational (a float in Python). *)
Record Stats := MkStats {
  used_memory : list Z;
  free_memory : list Z;
  fragmentation : list Q;
  blocks_count : list nat;
  operations : list nat;
  failed_allocations : nat;
  successful_allocations : nat;
  deallocations : nat;
  compactions : nat
}.

Definition empty_stats : Stats :=
  MkStats [] [] [] [] [] 0 0 0 0.

(** The counters after the branch on [op_type]. *)
Definition count_outcome (stats : Stats) (op : Operation) (success : bool) : Stats :=
  match op with
  | op_allocate _ _ =>
      if success
      then MkStats (used_memory stats) (free_memory stats) (fragmentation stats)
             (blocks_count stats) (operations stats) (failed_allocations stats)
             (S (successful_allocations stats)) (deallocations stats)
             (compactions stats)
      else MkStats (used_memory stats) (free_memory stats) (fragmentation stats)
             (blocks_count stats) (operations stats) (S (failed_allocations stats))
             (successful_allocations stats) (deallocations stats)
             (compactions stats)
  | op_deallocate _ =>
      if success
      then MkStats (used_memory stats) (free_memory stats) (fragmentation stats)
             (blocks_count stats) (operations stats) (failed_allocations stats)
             (successful_allocations stats) (S (deallocations stats))
             (compactions stats)
      else stats
  | op_compact =>
      if success
      then MkStats (used_memory stats) (free_memory stats) (fragmentation stats)
             (blocks_count stats) (operations stats) (failed_allocations stats)
             (successful_allocations stats) (deallocations stats)
             (S (compactions stats))
      else stats
  | op_other _ => stats
  end.

(** "Record current state": one more entry in each series. *)
Definition record_state (stats : Stats) (manager : Manager) (i : nat) : Stats :=
  MkStats (used_memory stats ++ [get_used_memory manager])
          (free_memory stats ++ [get_free_memory manager])
          (fragmentation stats ++
             [Qmult (get_fragmentation_ratio manager).1 (inject_Z 100)])
          (blocks_count stats ++ [length (blocks manager)])
          (operations stats ++ [i])
          (failed_allocations stats) (successful_allocations stats)
          (deallocations stats) (compactions stats).

Section Workload.

Variable log2_ceil : Z → Z.

(** The call an operation makes on the manager ([allocate] with its default
    [use_buddy=True]); none for an unknown tag. *)
Definition call_of (op : Operation) : option Call :=
  match op with
  | op_allocate name sz => Some (Allocate name sz true)
  | op_deallocate name => Some (Deallocate name)
  | op_compact => Some Compact
  | op_other _ => None
  end.

(** One iteration of the loop of [simulate_workload]. *)
Definition simulate_step (acc : Manager * Stats) (entry : nat * Operation)
    : Manager * Stats :=
  let '(manager, stats) := acc in
  let '(i, op) := entry in
  match call_of op with
  | Some c =>
      let manager' := run log2_ceil manager c in
      (manager', record_state (count_outcome stats op (succeeded log2_ceil manager c))
                              manager' i)
  | None => (manager, record_state stats manager i)
  end.

(** [enumerate(operations)]. *)
Definition enumerate {A} (l : list A) : list (nat * A) :=
  zip (seq 0 (length l)) l.

(** [simulate_workload(manager, operations)]: the statistics it returns and
    the manager it leaves behind. *)
Definition simulate_workload (manager : Manager) (ops : list Operation)
    : Manager * Stats :=
  foldl simulate_step (manager, empty_stats) (enumerate ops).

(** The manager after one operation, and the managers after each
    operation of a workload in turn. *)
Definition apply_operation (manager : Manager) (op : Operation) : Manager :=
  match call_of op with
  | Some c => run log2_ceil manager c
  | None => manager
  end.

Fixpoint states_after (manager : Manager) (ops : list Operation) : list Manager :=
  match ops with
  | [] => []
  | op :: rest =>
      apply_operation manager op :: states_after (apply_operation manager op) rest
  end.

End Workload.

Definition is_allocation (op : Operation) : bool :=
  match op with op_allocate _ _ => true | _ => false end.

Definition is_deallocation (op : Operation) : bool :=
  match op with op_deallocate _ => true | _ => false end.

Definition is_compaction (op : Operation) : bool :=
  match op with op_compact => true | _ => false end.

(** A block list as [_merge_free_blocks] can meet it in the middle of
    [deallocate], before the pass has run: two runs of free blocks around an
    allocated block, the objects listed in their address order. *)
Definition two_free_runs : Manager :=
  {| total_memory := 100;
     objects := [Block 0 10 true None; Block 10 20 true None;
                 Block 30 5 false (Some "A");
                 Block 35 15 true None; Block 50 20 true None;
                 Block 70 30 true None];
     blocks := [0; 1; 2; 3; 4; 5]%nat;
     process_map := {[ Some "A" := 2%nat ]} |}.

(** *** [backend/api.py]: the endpoints over the global manager *)

Module api.

(** What a handler does: return a body, or raise [HTTPException]. *)
Inductive Reply (A : Type) : Type :=
  | Served (body : A)
  | HTTPException (status_code : Z) (detail : string).

Arguments Served {A} body.
Arguments HTTPException {A} status_code detail.

(** The entries of a returned body that are not read off the manager; the
    other entries are those of [get_status()] of the manager the handler
    leaves in place. *)
Record Body := MkBody {
  success : bool;
  message : string;
  start_address : option Z;
  moved_processes : option Z
}.

Inductive Request :=
  | post_initialize (total : Z)
  | post_allocate (name : string) (sz : Z) (use_buddy : bool)
  | post_deallocate (name : string)
  | post_compact
  | post_reset (total : option Z).

(** The constraints of the request models ([gt=0], [min_length=1]): a
    request that breaks them does not reach its handler.  The query
    parameter of [/reset] carries no constraint. *)
Definition accepted (r : Request) : Prop :=
  match r with
  | post_initialize total => 0 < total
  | post_allocate name sz _ => name ≠ "" ∧ 0 < sz
  | post_deallocate name => name ≠ ""
  | post_compact => True
  | post_reset _ => True
  end.

Section Service.

Variable log2_ceil : Z → Z.

(** The handlers; the first component is the reply, the second the global
    [memory_manager] afterwards.  Each handler wraps its engine call in
    [try ... except Exception] (status 500); the engine raises nothing, so
    that branch is not taken and has no counterpart here. *)
Definition initialize_memory (memory_manager : option Manager) (total : Z)
    : Reply Body * option Manager :=
  (Served (MkBody true ("Memory initialized with " +:+ pretty total +:+ " KB")
                  None None),
   Some (__init__ total)).

Definition allocate_process (memory_manager : option Manager)
    (name : string) (sz : Z) (use_buddy : bool) : Reply Body * option Manager :=
  match memory_manager with
  | None => (HTTPException 400 "Memory not initialized. Call /initialize first.", None)
  | Some m =>
      let '((ok, msg, addr), m') := allocate log2_ceil m name sz use_buddy in
      (Served (MkBody ok msg addr None), Some m')
  end.

Definition deallocate_process (memory_manager : option Manager) (name : string)
    : Reply Body * option Manager :=
  match memory_manager with
  | None => (HTTPException 400 "Memory not initialized", None)
  | Some m =>
      let '((ok, msg), m') := deallocate m name in
      (Served (MkBody ok msg None None), Some m')
  end.

Definition compact_memory (memory_manager : option Manager)
    : Reply Body * option Manager :=
  match memory_manager with
  | None => (HTTPException 400 "Memory not initialized", None)
  | Some m =>
      let '((ok, msg, moved), m') := compact m in
      (Served (MkBody ok msg None (Some moved)), Some m')
  end.

Definition reset_memory (memory_manager : option Manager) (total : option Z)
    : Reply Body * option Manager :=
  match memory_manager with
  | None => (HTTPException 400 "Memory not initialized", None)
  | Some m =>
      (Served (MkBody true "Memory reset successfully" None None),
       Some (reset m total))
  end.

(** The route table of the five [POST] routes, for a request that has
    passed the validation of its request model ([accepted]): the framework
    answers a request that fails it (status 422) without calling a handler,
    and that answer has no counterpart here.  The [GET] routes ([/],
    [/status], [/health]) only read the manager, are answered whether or not
    one exists, and are not part of this table. *)
Definition serve (memory_manager : option Manager) (r : Request)
    : Reply Body * option Manager :=
  match r with
  | post_initialize total => initialize_memory memory_manager total
  | post_allocate name sz use_buddy => allocate_process memory_manager name sz use_buddy
  | post_deallocate name => deallocate_process memory_manager name
  | post_compact => compact_memory memory_manager
  | post_reset total => reset_memory memory_manager total
  end.

(** The engine call behind a request; [/initialize] builds a new manager
    instead. *)
Definition call_of_request (r : Request) : option Call :=
  match r with
  | post_initialize _ => None
  | post_allocate name sz use_buddy => Some (Allocate name sz use_buddy)
  | post_deallocate name => Some (Deallocate name)
  | post_compact => Some Compact
  | post_reset total => Some (Reset total)
  end.

(** The global manager after a sequence of requests. *)
Definition serve_all (memory_manager : option Manager) (rs : list Request)
    : option Manager :=
  foldl (λ mm r, (serve mm r).2) memory_manager rs.

End Service.

End api.

(** * Proofs *)

(** ** Rounding *)

Lemma round_nonpositive log2_ceil sz :
  sz ≤ 0 → _round_to_power_of_2 log2_ceil sz = 1.
Proof.
  intros H. unfold _round_to_power_of_2.
  destruct (Z.leb_spec sz 0); [done | lia].
Qed.

Lemma round_positive log2_ceil sz :
  0 < sz → _round_to_power_of_2 log2_ceil sz = 2 ^ log2_ceil sz.
Proof.
  intros H. unfold _round_to_power_of_2.
  destruct (Z.leb_spec sz 0); [lia | done].
Qed.

Lemma actual_size_no_rounding log2_ceil sz : actual_size log2_ceil sz false = sz.
Proof. reflexivity. Qed.

(** Integers of at most 53 bits are their own binary64 value. *)
Lemma binary64_small n : n < 2 ^ 53 → binary64_of_int n = n.
Proof.
  intros H. unfold binary64_of_int.
  destruct (Z.leb_spec (Z.log2 n - 52) 0) as [|Hlt]; [done|].
  exfalso. destruct (Z.le_gt_cases n 0) as [Hn|Hn].
  - rewrite (Z.log2_nonpos n Hn) in Hlt. lia.
  - assert (Z.log2 n < 53) by (apply Z.log2_lt_pow2; lia). lia.
Qed.

(** Powers of two are exact in binary64. *)
Lemma binary64_pow2 k : 0 ≤ k → binary64_of_int (2 ^ k) = 2 ^ k.
Proof.
  intros Hk. unfold binary64_of_int. rewrite Z.log2_pow2 by done.
  destruct (Z.leb_spec (k - 52) 0) as [|Hlt]; [done|].
  assert (Hsplit : 2 ^ k = 2 ^ 52 * 2 ^ (k - 52)).
  { rewrite <- Z.pow_add_r by lia. f_equal. lia. }
  assert (Hpos : 0 < 2 ^ (k - 52)) by (apply Z.pow_pos_nonneg; lia).
  assert (Hhalf : 0 < 2 ^ (k - 52 - 1)) by (apply Z.pow_pos_nonneg; lia).
  assert (Hmod : (2 ^ k) mod 2 ^ (k - 52) = 0).
  { rewrite Hsplit. apply Z_mod_mult. }
  assert (Hdiv : 2 ^ k / 2 ^ (k - 52) = 2 ^ 52).
  { rewrite Hsplit. apply Z_div_mult. lia. }
  rewrite Hmod, Hdiv.
  destruct (Z.ltb_spec 0 (2 ^ (k - 52 - 1))); [lia | lia].
Qed.

Lemma log2_ceil_exact_through : through_binary64 log2_ceil_exact.
Proof. exists Z.log2_up. reflexivity. Qed.

Lemma log2_ceil_exact_powers : exact_on_powers log2_ceil_exact.
Proof.
  intros k [Hk _]. unfold log2_ceil_exact.
  rewrite binary64_pow2 by done. by apply Z.log2_up_pow2.
Qed.

(** A property of the instance [log2_ceil_exact] alone: where the conversion
    is exact it rounds up to the least power of two that is large enough.
    Nothing follows from it for the program's own logarithm, which above
    [2^48] can come out on the integer below. *)
Lemma round_exact_least sz :
  0 < sz < 2 ^ 53 →
  let p := _round_to_power_of_2 log2_ceil_exact sz in
  sz ≤ p ∧ (∃ k, 0 ≤ k ∧ p = 2 ^ k) ∧ ∀ k, 0 ≤ k → sz ≤ 2 ^ k → p ≤ 2 ^ k.
Proof.
  intros [Hpos Hlt]. cbv zeta. rewrite round_positive by done.
  unfold log2_ceil_exact. rewrite binary64_small by done.
  split; [|split].
  - destruct (Z.eq_dec sz 1) as [->|]; [done|].
    apply (Z.log2_up_spec sz). lia.
  - exists (Z.log2_up sz). split; [apply Z.log2_up_nonneg | done].
  - intros k Hk Hle. apply Z.pow_le_mono_r; [lia|].
    apply Z.log2_up_le_pow2; done.
Qed.

Example round_100 : _round_to_power_of_2 log2_ceil_exact 100 = 128.
Proof. reflexivity. Qed.

Example allocate_100_uses_128 :
  let r := allocate log2_ceil_exact (__init__ 1024) "X" 100 true in
  r.1 = (true, "Process 'X' allocated 128KB", Some 0) ∧
  layout r.2 = [Block 0 128 false (Some "X"); Block 128 896 true None] ∧
  get_used_memory r.2 = 128.
Proof. vm_compute. done. Qed.

(** C7 (the program departs from the claim).  [math.log2] reads the size
    through binary64, where [2^60 + 1] and [2^60] are the same number: the
    size reserved for a request of [2^60 + 1] units is [2^60], which is
    smaller than the request, so allocation with rounding hands out a block
    that is too small. *)
Theorem round_below_request (log2_ceil : Z → Z) :
  through_binary64 log2_ceil → exact_on_powers log2_ceil →
  _round_to_power_of_2 log2_ceil (2 ^ 60 + 1) = 2 ^ 60 ∧
  actual_size log2_ceil (2 ^ 60 + 1) true < 2 ^ 60 + 1 ∧
  let r := allocate log2_ceil (__init__ (2 ^ 61)) "X" (2 ^ 60 + 1) true in
  r.1.1.1 = true ∧
  layout r.2 = [Block 0 (2 ^ 60) false (Some "X"); Block (2 ^ 60) (2 ^ 60) true None] ∧
  get_used_memory r.2 = 2 ^ 60.
Proof.
  intros [g Hg] Hpow.
  assert (Hlog : log2_ceil (2 ^ 60 + 1) = 60).
  { rewrite Hg by (split; [done | by vm_compute]).
    replace (binary64_of_int (2 ^ 60 + 1)) with (binary64_of_int (2 ^ 60))
      by (by vm_compute).
    rewrite <- Hg by (split; [done | by vm_compute]).
    apply Hpow. lia. }
  assert (Hround : _round_to_power_of_2 log2_ceil (2 ^ 60 + 1) = 2 ^ 60).
  { rewrite round_positive by done. by rewrite Hlog. }
  split; [done|]. split.
  { unfold actual_size. rewrite Hround. lia. }
  cbv zeta. unfold allocate, actual_size. rewrite Hround.
  vm_compute. done.
Qed.

Lemma round_below_request_witness :
  _round_to_power_of_2 log2_ceil_exact (2 ^ 60 + 1) = 2 ^ 60.
Proof.
  apply (round_below_request log2_ceil_exact
           log2_ceil_exact_through log2_ceil_exact_powers).
Defined.

(** ** The object store *)

Arguments layout_of : simpl never.

Lemma layout_of_length h refs : length (layout_of h refs) = length refs.
Proof. unfold layout_of. by rewrite length_fmap. Qed.

Lemma layout_length s : length (layout s) = length (blocks s).
Proof. apply layout_of_length. Qed.

Lemma layout_of_app h refs refs' :
  layout_of h (refs ++ refs') = layout_of h refs ++ layout_of h refs'.
Proof. unfold layout_of. apply fmap_app. Qed.

Lemma layout_of_cons h r refs :
  layout_of h (r :: refs) = h !!! r :: layout_of h refs.
Proof. reflexivity. Qed.

Lemma layout_of_lookup h refs i :
  layout_of h refs !! i = (λ r, h !!! r) <$> refs !! i.
Proof. unfold layout_of. apply list_lookup_fmap. Qed.

Lemma store_app_old (h h' : list MemoryBlock) r :
  (r < length h)%nat → (h ++ h') !!! r = h !!! r.
Proof. intros H. by apply lookup_total_app_l. Qed.

Lemma store_app_new (h : list MemoryBlock) b h' : (h ++ b :: h') !!! length h = b.
Proof. by apply list_lookup_total_middle. Qed.

Lemma store_insert_eq (h : list MemoryBlock) r b :
  (r < length h)%nat → <[r := b]> h !!! r = b.
Proof. intros H. by apply list_lookup_total_insert_eq. Qed.

Lemma store_insert_ne (h : list MemoryBlock) r r' b :
  r ≠ r' → <[r := b]> h !!! r' = h !!! r'.
Proof. intros H. by apply list_lookup_total_insert_ne. Qed.

Lemma layout_of_grown h h' refs :
  Forall (λ r, (r < length h)%nat) refs →
  layout_of (h ++ h') refs = layout_of h refs.
Proof.
  induction 1 as [|r refs Hr _ IH]; [done|].
  rewrite !layout_of_cons, IH. f_equal. by apply store_app_old.
Qed.

Lemma layout_of_untouched h r b refs :
  r ∉ refs → layout_of (<[r := b]> h) refs = layout_of h refs.
Proof.
  induction refs as [|r' refs IH]; [done|].
  intros Hnot. rewrite !layout_of_cons.
  rewrite IH by set_solver. f_equal. apply store_insert_ne. set_solver.
Qed.

(** ** Construction and reset *)

Lemma layout_initialize s :
  layout (_initialize_memory s) = [Block 0 (total_memory s) true None].
Proof.
  unfold layout, _initialize_memory; simpl.
  rewrite layout_of_cons. f_equal. apply store_app_new.
Qed.

Lemma layout_init total : layout (__init__ total) = [Block 0 total true None].
Proof. reflexivity. Qed.

(** C10.  [reset()] and [reset(0)] are the same call: the capacity is kept,
    the layout is one free block over the whole range, the registry is
    empty. *)
Theorem reset_zero_is_reset_none (s : Manager) :
  reset s (Some 0) = reset s None ∧
  total_memory (reset s None) = total_memory s ∧
  layout (reset s None) = [Block 0 (total_memory s) true None] ∧
  process_map (reset s None) = ∅.
Proof.
  split; [reflexivity|]. split; [reflexivity|].
  split; [apply layout_initialize | reflexivity].
Qed.

(** C5 (refuted as stated).  Nothing rejects a non-positive capacity: the
    constructor builds a manager of capacity [0] or [-5] like any other, and
    [reset(-5)] installs capacity [-5]. *)
Lemma nonpositive_capacity_accepted :
  total_memory (__init__ 0) = 0 ∧
  layout (__init__ 0) = [Block 0 0 true None] ∧
  total_memory (__init__ (-5)) = -5 ∧
  layout (__init__ (-5)) = [Block 0 (-5) true None] ∧
  total_memory (reset (__init__ 8) (Some (-5))) = -5 ∧
  layout (reset (__init__ 8) (Some (-5))) = [Block 0 (-5) true None].
Proof. vm_compute. done. Qed.

(** C5 (amended).  A non-positive capacity is taken as it is: the constructor
    establishes a single free block of that size, [reset] installs a negative
    capacity the same way, and [reset(0)] keeps the capacity it had. *)
Theorem nonpositive_capacity (c : Z) (s : Manager) :
  c ≤ 0 →
  total_memory (__init__ c) = c ∧
  layout (__init__ c) = [Block 0 c true None] ∧
  process_map (__init__ c) = ∅ ∧
  (c < 0 →
     total_memory (reset s (Some c)) = c ∧
     layout (reset s (Some c)) = [Block 0 c true None] ∧
     process_map (reset s (Some c)) = ∅) ∧
  (c = 0 →
     total_memory (reset s (Some c)) = total_memory s ∧
     layout (reset s (Some c)) = [Block 0 (total_memory s) true None] ∧
     process_map (reset s (Some c)) = ∅).
Proof.
  intros Hc. do 3 (split; [reflexivity|]). split.
  - intros Hneg. unfold reset.
    assert (truthy (Some c) = true) as ->.
    { simpl. destruct (Z.eqb_spec c 0); [lia | done]. }
    split; [reflexivity|]. split; [apply layout_initialize | reflexivity].
  - intros ->. split; [reflexivity|].
    split; [apply layout_initialize | reflexivity].
Qed.

Lemma nonpositive_capacity_witness :
  total_memory (__init__ (-5)) = -5 ∧
  total_memory (reset (__init__ 8) (Some (-5))) = -5.
Proof.
  destruct (nonpositive_capacity (-5) (__init__ 8)) as (H1 & _ & _ & H2 & _); [lia|].
  split; [exact H1 | apply H2; lia].
Defined.

(** ** Failed calls *)

(** C4.  A call that reports failure returns its message and leaves the
    manager exactly as it was: blocks, registry, capacity, and so every
    metric computed from them. *)
Theorem failed_call_leaves_state (log2_ceil : Z → Z) (s : Manager) (c : Call) :
  succeeded log2_ceil s c = false →
  run log2_ceil s c = s ∧
  match c with
  | Allocate name _ _ =>
      message log2_ceil s c = "Process '" +:+ name +:+ "' already allocated" ∨
      message log2_ceil s c = "No suitable free block found. Try compaction."
  | Deallocate name => message log2_ceil s c = "Process '" +:+ name +:+ "' not found"
  | Compact => message log2_ceil s c = "No allocated blocks to compact"
  | Reset _ => False
  end ∧
  get_used_memory (run log2_ceil s c) = get_used_memory s ∧
  get_free_memory (run log2_ceil s c) = get_free_memory s ∧
  (get_fragmentation_ratio (run log2_ceil s c)).1 = (get_fragmentation_ratio s).1.
Proof.
  intros Hfail.
  assert (run log2_ceil s c = s ∧
    match c with
    | Allocate name _ _ =>
        message log2_ceil s c = "Process '" +:+ name +:+ "' already allocated" ∨
        message log2_ceil s c = "No suitable free block found. Try compaction."
    | Deallocate name => message log2_ceil s c = "Process '" +:+ name +:+ "' not found"
    | Compact => message log2_ceil s c = "No allocated blocks to compact"
    | Reset _ => False
    end) as [Hrun Hmsg].
  { destruct c as [name sz ub|name| |n]; simpl in *.
    - unfold allocate in *.
      destruct (process_map s !! Some name); [by auto|].
      destruct (_find_best_fit s (actual_size log2_ceil sz ub)); [done | by auto].
    - unfold deallocate in *. destruct (process_map s !! Some name); done.
    - unfold compact in *.
      destruct (allocated_refs (objects s) (blocks s)); [done|].
      destruct (relocate _ _ _ _ _) as [[[? ?] ?] ?]. done.
    - done. }
  rewrite Hrun. done.
Qed.

Lemma failed_call_leaves_state_witness :
  run log2_ceil_exact (__init__ 1024) (Deallocate "ghost") = __init__ 1024.
Proof.
  apply (failed_call_leaves_state log2_ceil_exact (__init__ 1024) (Deallocate "ghost")).
  reflexivity.
Defined.

(** ** Fragmentation ratio *)

Lemma count_free_filter bs :
  length (filter (λ b, is_free b = true) bs) = count_free bs.
Proof.
  induction bs as [|b bs IH]; [done|].
  rewrite filter_cons. simpl. destruct (is_free b) eqn:E.
  - rewrite decide_True by done. simpl. by rewrite IH.
  - rewrite decide_False by done. by rewrite IH.
Qed.

(** C9.  The ratio is [0] with at most one free block and
    [(free blocks - 1) / (all blocks)] otherwise; the manager is returned
    untouched. *)
Theorem fragmentation_ratio_formula (s : Manager) :
  (get_fragmentation_ratio s).2 = s ∧
  Qeq (get_fragmentation_ratio s).1
      (if decide (count_free (layout s) ≤ 1)%nat then 0%Q
       else Qdiv (inject_Z (Z.of_nat (count_free (layout s)) - 1))
                 (inject_Z (Z.of_nat (length (layout s))))).
Proof.
  unfold get_fragmentation_ratio. rewrite count_free_filter.
  destruct (Nat.leb_spec (count_free (layout s)) 1) as [Hle|Hgt].
  - rewrite decide_True by done. done.
  - rewrite decide_False by lia. split; [done|]. simpl.
    rewrite Qmake_Qdiv. rewrite layout_length.
    assert (0 < length (blocks s))%nat.
    { rewrite <- layout_length. rewrite <- count_free_filter in Hgt.
      pose proof (length_filter (λ b, is_free b = true) (layout s)). lia. }
    replace (Z.pos (Pos.of_nat (length (blocks s)))) with (Z.of_nat (length (blocks s))).
    + reflexivity.
    + destruct (length (blocks s)) as [|n] eqn:E; [lia|].
      rewrite <- Pos.of_nat_succ. by rewrite Zpos_P_of_succ_nat, Nat2Z.inj_succ.
Qed.

(** ** Chains of blocks *)

Lemma chain_app a l1 l2 t :
  chain a (l1 ++ l2) t ↔ ∃ m, chain a l1 m ∧ chain m l2 t.
Proof.
  revert a. induction l1 as [|b l1 IH]; intros a; simpl.
  - split; [intros H; by exists a | by intros (m & -> & H)].
  - rewrite IH. split.
    + intros (Hs & Hp & m & H1 & H2). by exists m.
    + intros (m & (Hs & Hp & H1) & H2). repeat split; [done..|]. by exists m.
Qed.

Lemma chain_sum a bs t : chain a bs t → t = a + sum_sizes bs.
Proof.
  revert a. induction bs as [|b bs IH]; intros a; simpl.
  - intros ->. lia.
  - intros (Hs & _ & H). rewrite (IH _ H). unfold block_end. lia.
Qed.

Lemma chain_le a bs t : chain a bs t → a ≤ t.
Proof.
  revert a. induction bs as [|b bs IH]; intros a; simpl.
  - intros ->. lia.
  - intros (Hs & Hp & H). apply IH in H. unfold block_end in H. lia.
Qed.

Lemma chain_start_bound a bs t b :
  chain a bs t → b ∈ bs → a ≤ start b ∧ 0 < size b ∧ block_end b ≤ t.
Proof.
  revert a. induction bs as [|b0 bs IH]; intros a; simpl.
  - intros _ Hin. by apply elem_of_nil in Hin.
  - intros (Hs & Hp & H) Hin. apply elem_of_cons in Hin as [->|Hin].
    + apply chain_le in H. lia.
    + destruct (IH _ H Hin) as (? & ? & ?). unfold block_end in *. lia.
Qed.

Lemma chain_ascending a bs t i j bi bj :
  chain a bs t → bs !! i = Some bi → bs !! j = Some bj → (i < j)%nat →
  start bi < start bj.
Proof.
  revert a i j. induction bs as [|b bs IH]; intros a i j; simpl; [done|].
  intros (Hs & Hp & H) Hi Hj Hlt.
  destruct j as [|j]; [lia|]. simpl in Hj.
  destruct i as [|i]; simpl in Hi.
  - injection Hi as ->.
    assert (bj ∈ bs) as Hin by (eapply list_elem_of_lookup_2; done).
    destruct (chain_start_bound _ _ _ _ H Hin) as (? & _). unfold block_end in *. lia.
  - eapply IH; [done..|lia].
Qed.

Lemma chain_adjacent a bs t i b b' :
  chain a bs t → bs !! i = Some b → bs !! S i = Some b' → start b' = block_end b.
Proof.
  revert a i. induction bs as [|b0 bs IH]; intros a i; simpl; [done|].
  intros (Hs & Hp & H) Hi Hi'. destruct i as [|i]; simpl in *.
  - injection Hi as ->. destruct bs as [|b1 bs]; [done|].
    injection Hi' as ->. by destruct H.
  - eapply IH; done.
Qed.

Lemma chain_last a bs t : chain a bs t → bs ≠ [] → block_end <$> last bs = Some t.
Proof.
  revert a. induction bs as [|b bs IH]; intros a; simpl; [done|].
  intros (Hs & Hp & H) _. destruct bs as [|b1 bs].
  - simpl in *. by rewrite H.
  - rewrite last_cons_cons. eapply IH; done.
Qed.

(** The recursive invariant gives the one the specification words. *)
Lemma chain_partitions bs t : bs ≠ [] → chain 0 bs t → partitions bs t.
Proof.
  intros Hne H. split.
  - intros i j bi bj. by eapply chain_ascending.
  - intros i b b'. by eapply chain_adjacent.
  - destruct bs as [|b bs]; [done|]. simpl in *. by destruct H as [-> _].
  - by eapply chain_last.
  - intros b Hin. by destruct (chain_start_bound _ _ _ _ H Hin) as (_ & ? & _).
Qed.

Lemma coalesced_no_adjacent_free bs : coalesced bs ↔ no_adjacent_free bs.
Proof.
  unfold no_adjacent_free. induction bs as [|b bs IH]; [done|].
  destruct bs as [|b' bs].
  - split; [|done]. intros _ [|i] ? ? ? Hi'; done.
  - change (coalesced (b :: b' :: bs))
      with (¬ (is_free b = true ∧ is_free b' = true) ∧ coalesced (b' :: bs)).
    rewrite IH. split.
    + intros [Hb H] [|i] x y Hx Hy; simpl in *.
      * by simplify_eq.
      * by eapply H.
    + intros H. split; [by apply (H 0%nat)|].
      intros i x y Hx Hy. by apply (H (S i)).
Qed.

Lemma coalesced_tail b bs : coalesced (b :: bs) → coalesced bs.
Proof. destruct bs; [done | by intros [_ H]]. Qed.

Lemma coalesced_app_r l1 l2 : coalesced (l1 ++ l2) → coalesced l2.
Proof.
  induction l1 as [|b l1 IH]; [done|].
  intros H. apply IH. by eapply coalesced_tail.
Qed.

(** ** Coalescing on the layout *)

Lemma coalesce_head_free b bs :
  is_free <$> head (coalesce (b :: bs)) = Some (is_free b).
Proof.
  simpl. destruct (coalesce bs) as [|c out]; [done|].
  by destruct (is_free b && is_free c).
Qed.

Lemma coalesce_nil_inv bs : coalesce bs = [] → bs = [].
Proof.
  destruct bs as [|b bs]; [done|]. intros H.
  pose proof (coalesce_head_free b bs) as Hh. by rewrite H in Hh.
Qed.

Lemma grow_zero b : grow b 0 = b.
Proof. destruct b. unfold grow; simpl. f_equal. lia. Qed.

Lemma grow_grow b x y : grow (grow b x) y = grow b (x + y).
Proof. unfold grow; simpl. f_equal. lia. Qed.

(** An allocated block stays where it is and ends every run before it. *)
Lemma coalesce_allocated b bs :
  is_free b = false → coalesce (b :: bs) = b :: coalesce bs.
Proof.
  intros Hb. simpl. destruct (coalesce bs) as [|c out]; [done|].
  by rewrite Hb.
Qed.

(** A block followed by nothing free stays as it is. *)
Lemma coalesce_stop b bs :
  is_free <$> head bs ≠ Some true → coalesce (b :: bs) = b :: coalesce bs.
Proof.
  intros Hh. destruct bs as [|b' bs]; [done|].
  pose proof (coalesce_head_free b' bs) as Hc.
  change (coalesce (b :: b' :: bs))
    with (match coalesce (b' :: bs) with
          | c :: out => if is_free b && is_free c then grow b (size c) :: out
                        else b :: c :: out
          | [] => [b]
          end).
  destruct (coalesce (b' :: bs)) as [|c out]; [done|].
  simpl in Hc, Hh. injection Hc as Hc. rewrite Hc.
  destruct (is_free b'); [done|]. by rewrite andb_false_r.
Qed.

(** A free block swallows the run of free blocks that follows it. *)
Lemma coalesce_run b run rest :
  is_free b = true → Forall (λ x, is_free x = true) run →
  is_free <$> head rest ≠ Some true →
  coalesce (b :: run ++ rest) = grow b (sum_sizes run) :: coalesce rest.
Proof.
  intros Hb Hrun Hrest. revert b Hb.
  induction Hrun as [|f run Hf _ IH]; intros b Hb.
  - simpl app. rewrite coalesce_stop by done. simpl. by rewrite grow_zero.
  - change (coalesce (b :: (f :: run) ++ rest))
      with (match coalesce (f :: run ++ rest) with
            | c :: out => if is_free b && is_free c then grow b (size c) :: out
                          else b :: c :: out
            | [] => [b]
            end).
    rewrite (IH f Hf). simpl. rewrite Hb, Hf. simpl. done.
Qed.

Lemma coalesce_fixed bs : coalesced bs → coalesce bs = bs.
Proof.
  induction bs as [|b bs IH]; [done|].
  intros H. pose proof (coalesced_tail _ _ H) as Ht.
  simpl. rewrite (IH Ht). destruct bs as [|c bs]; [done|].
  destruct H as [Hn _].
  destruct (is_free b) eqn:Eb; [|done].
  destruct (is_free c) eqn:Ec; [|done]. by destruct Hn.
Qed.

Lemma coalesce_coalesced bs : coalesced (coalesce bs).
Proof.
  induction bs as [|b bs IH]; [done|]. simpl.
  destruct (coalesce bs) as [|c out] eqn:E; [done|].
  destruct (is_free b && is_free c) eqn:Ebc.
  - apply andb_true_iff in Ebc as [Eb Ec].
    destruct out as [|d out]; [done|].
    destruct IH as [Hn IH]. split; [|done].
    simpl. intros [_ Hd]. apply Hn. done.
  - split; [|done]. intros [Eb Ec]. by rewrite Eb, Ec in Ebc.
Qed.

Lemma coalesce_chain a bs t : chain a bs t → chain a (coalesce bs) t.
Proof.
  revert a. induction bs as [|b bs IH]; intros a; [done|].
  intros (Hs & Hp & H). apply IH in H. simpl.
  destruct (coalesce bs) as [|c out] eqn:E.
  - simpl in *. done.
  - destruct (is_free b && is_free c).
    + simpl in *. destruct H as (Hc & Hpc & H).
      split; [done|]. split; [lia|].
      unfold block_end in *. simpl.
      replace (start b + (size b + size c)) with (start c + size c) by lia. done.
    + simpl. done.
Qed.

Lemma coalesce_sum bs : sum_sizes (coalesce bs) = sum_sizes bs.
Proof.
  induction bs as [|b bs IH]; [done|]. simpl.
  destruct (coalesce bs) as [|c out] eqn:E.
  - simpl in *. lia.
  - destruct (is_free b && is_free c); simpl in *; lia.
Qed.

(** Splitting a free block of a coalesced layout into two free pieces and
    coalescing gives the layout back. *)
Lemma coalesce_rejoin pre b1 b2 post :
  coalesced (pre ++ grow b1 (size b2) :: post) →
  is_free b1 = true → is_free b2 = true →
  coalesce (pre ++ b1 :: b2 :: post) = pre ++ grow b1 (size b2) :: post.
Proof.
  intros H Hb1 Hb2. induction pre as [|p pre IH].
  - simpl in H. pose proof (coalesced_tail _ _ H) as Hpost.
    assert (is_free <$> head post ≠ Some true) as Hhead.
    { destruct post as [|c post]; [done|]. destruct H as [Hn _].
      simpl in *. intros [= Hc]. apply Hn. done. }
    simpl app. change (b1 :: b2 :: post) with (b1 :: [b2] ++ post).
    rewrite (coalesce_run b1 [b2] post) by (done || by constructor).
    rewrite (coalesce_fixed post Hpost). simpl. do 2 f_equal. lia.
  - simpl app in *. specialize (IH (coalesced_tail _ _ H)).
    change (coalesce (p :: pre ++ b1 :: b2 :: post))
      with (match coalesce (pre ++ b1 :: b2 :: post) with
            | c :: out => if is_free p && is_free c then grow p (size c) :: out
                          else p :: c :: out
            | [] => [p]
            end).
    rewrite IH. destruct (pre ++ grow b1 (size b2) :: post) as [|c out] eqn:E.
    { by destruct pre. }
    destruct H as [Hn _].
    destruct (is_free p) eqn:Ep; [|done].
    destruct (is_free c) eqn:Ec; [|done]. by destruct Hn.
Qed.

(** ** Best-fit search *)

Lemma fits_dec sz b : is_free b && (sz <=? size b) = true ↔ fits sz b.
Proof. unfold fits. rewrite andb_true_iff, Z.leb_le. done. Qed.

Lemma search_state_step sz bs b best_idx best_size :
  search_state sz bs best_idx best_size →
  search_state sz (bs ++ [b])
    (if is_free b && (sz <=? size b)
     then if below (size b) best_size then Some (length bs) else best_idx
     else best_idx)
    (if is_free b && (sz <=? size b)
     then if below (size b) best_size then Some (size b) else best_size
     else best_size).
Proof.
  intros Hst. destruct (is_free b && (sz <=? size b)) eqn:Efit.
  - apply fits_dec in Efit. destruct best_idx as [i|]; simpl in Hst.
    + destruct Hst as (b0 & (Hi & Hfit0 & Hmin) & ->). simpl.
      destruct (Z.ltb_spec (size b) (size b0)) as [Hlt|Hge].
      * exists b. split; [|done]. split; [|split; [done|]].
        { by rewrite lookup_app_r, Nat.sub_diag by lia. }
        intros j b' Hj Hfit'. apply lookup_app_Some in Hj as [Hj|[Hlen Hj]].
        -- destruct (Hmin _ _ Hj Hfit'). lia.
        -- destruct (j - length bs)%nat as [|?] eqn:E; [|done].
           simpl in Hj. injection Hj as <-. split; [lia|]. intros _. lia.
      * exists b0. split; [|done]. split; [|split; [done|]].
        { by apply lookup_app_l_Some. }
        intros j b' Hj Hfit'. apply lookup_app_Some in Hj as [Hj|[Hlen Hj]].
        -- by apply Hmin.
        -- destruct (j - length bs)%nat as [|?] eqn:E; [|done].
           simpl in Hj. injection Hj as <-. split; [lia|]. intros _.
           apply lookup_lt_Some in Hi. lia.
    + destruct Hst as [-> Hnone]. simpl.
      exists b. split; [|done]. split; [|split; [done|]].
      { by rewrite lookup_app_r, Nat.sub_diag by lia. }
      intros j b' Hj Hfit'. apply lookup_app_Some in Hj as [Hj|[Hlen Hj]].
      * exfalso. eapply Hnone; [|done]. by eapply list_elem_of_lookup_2.
      * destruct (j - length bs)%nat as [|?] eqn:E; [|done].
        simpl in Hj. injection Hj as <-. split; [lia|]. intros _. lia.
  - assert (¬ fits sz b) as Hno.
    { intros H. apply fits_dec in H. congruence. }
    destruct best_idx as [i|]; simpl in *.
    + destruct Hst as (b0 & (Hi & Hfit0 & Hmin) & ->).
      exists b0. split; [|done]. split; [|split; [done|]].
      { by apply lookup_app_l_Some. }
      intros j b' Hj Hfit'. apply lookup_app_Some in Hj as [Hj|[Hlen Hj]].
      * by apply Hmin.
      * destruct (j - length bs)%nat as [|?] eqn:E; [|done].
        simpl in Hj. injection Hj as <-. done.
    + destruct Hst as [-> Hnone]. split; [done|].
      intros b' Hin. apply elem_of_app in Hin as [Hin|Hin].
      * by apply Hnone.
      * apply list_elem_of_singleton in Hin as ->. done.
Qed.

Lemma best_fit_loop_state h sz refs pre best_idx best_size :
  search_state sz (layout_of h pre) best_idx best_size →
  ∃ best_size',
    search_state sz (layout_of h (pre ++ refs))
      (best_fit_loop h sz refs (length pre) best_idx best_size) best_size'.
Proof.
  revert pre best_idx best_size.
  induction refs as [|r refs IH]; intros pre best_idx best_size Hst.
  - rewrite app_nil_r. by exists best_size.
  - apply (search_state_step _ _ (h !!! r)) in Hst.
    rewrite layout_of_length in Hst.
    change (layout_of h pre ++ [h !!! r]) with (layout_of h pre ++ layout_of h [r]) in Hst.
    rewrite <- layout_of_app in Hst.
    replace (pre ++ r :: refs) with ((pre ++ [r]) ++ refs) by (by rewrite <- app_assoc).
    simpl. destruct (is_free (h !!! r) && (sz <=? size (h !!! r))).
    + destruct (below (size (h !!! r)) best_size).
      * specialize (IH (pre ++ [r]) _ _ Hst).
        rewrite length_app in IH. simpl in IH.
        by replace (length pre + 1)%nat with (S (length pre)) in IH by lia.
      * specialize (IH (pre ++ [r]) _ _ Hst).
        rewrite length_app in IH. simpl in IH.
        by replace (length pre + 1)%nat with (S (length pre)) in IH by lia.
    + specialize (IH (pre ++ [r]) _ _ Hst).
      rewrite length_app in IH. simpl in IH.
      by replace (length pre + 1)%nat with (S (length pre)) in IH by lia.
Qed.

(** [_find_best_fit] returns the best candidate, and nothing only when no
    block fits. *)
Lemma find_best_fit_spec s sz :
  match _find_best_fit s sz with
  | Some i => ∃ b, best_candidate sz (layout s) i b
  | None => ∀ b, b ∈ layout s → ¬ fits sz b
  end.
Proof.
  unfold _find_best_fit, layout.
  destruct (best_fit_loop_state (objects s) sz (blocks s) [] None None)
    as [bsz H].
  { split; [done|]. intros b Hin. by apply elem_of_nil in Hin. }
  simpl in H. destruct (best_fit_loop _ _ _ _ _ _) as [i|]; simpl in H.
  - destruct H as (b & H & _). by exists b.
  - by destruct H.
Qed.

Lemma best_candidate_unique sz bs i b i' b' :
  best_candidate sz bs i b → best_candidate sz bs i' b' → i = i' ∧ b = b'.
Proof.
  intros (Hi & Hf & Hm) (Hi' & Hf' & Hm').
  destruct (Hm _ _ Hi' Hf') as [H1 H2]. destruct (Hm' _ _ Hi Hf) as [H3 H4].
  assert (size b = size b') as E by lia.
  assert (i = i') as -> by (specialize (H2 (eq_sym E)); specialize (H4 E); lia).
  split; [done|]. congruence.
Qed.


(** ** Allocation *)

Arguments place : simpl never.

Lemma layout_of_take h refs i : layout_of h (take i refs) = take i (layout_of h refs).
Proof. unfold layout_of. apply fmap_take. Qed.

Lemma layout_of_drop h refs i : layout_of h (drop i refs) = drop i (layout_of h refs).
Proof. unfold layout_of. apply fmap_drop. Qed.

Lemma Forall_take_drop {A} (P : A → Prop) (l : list A) i :
  Forall P l → Forall P (take i l) ∧ Forall P (drop i l).
Proof. intros H. split; [by apply Forall_take | by apply Forall_drop]. Qed.

(** The state after a split, field by field. *)
Lemma place_split s name asz i r :
  blocks s !! i = Some r → asz < size (objects s !!! r) →
  let b := objects s !!! r in
  place s name asz i =
    {| total_memory := total_memory s;
       objects := objects s ++ [Block (start b) asz false (Some name);
                                Block (start b + asz) (size b - asz) true None];
       blocks := take i (blocks s) ++
                 [length (objects s); S (length (objects s))] ++
                 drop (S i) (blocks s);
       process_map := <[Some name := length (objects s)]> (process_map s) |}.
Proof.
  intros Hi Hlt. cbv zeta. unfold place.
  rewrite (list_lookup_total_correct _ _ _ Hi).
  set (b := objects s !!! r) in *.
  destruct (Z.ltb_spec asz (size b)) as [_|]; [|lia]. simpl.
  pose proof (lookup_lt_Some _ _ _ Hi) as Hlen.
  assert (list_insert_at (S i) (S (length (objects s)))
            (<[i := length (objects s)]> (blocks s)) =
          take i (blocks s) ++ [length (objects s); S (length (objects s))] ++
          drop (S i) (blocks s)) as Hblocks.
  { unfold list_insert_at. rewrite insert_take_drop by done.
    replace (take i (blocks s) ++ length (objects s) :: drop (S i) (blocks s))
      with ((take i (blocks s) ++ [length (objects s)]) ++ drop (S i) (blocks s))
      by (by rewrite <- app_assoc).
    assert (length (take i (blocks s) ++ [length (objects s)]) = S i) as Hl.
    { rewrite length_app, length_take. simpl. lia. }
    rewrite take_app_length' by done. rewrite drop_app_length' by done.
    by rewrite <- app_assoc. }
  rewrite Hblocks. f_equal. f_equal.
  apply list_lookup_total_correct.
  rewrite lookup_app_r by (rewrite length_take; lia).
  rewrite length_take. by replace (i - i `min` length (blocks s))%nat with 0%nat by lia.
Qed.

(** The state after taking a block over whole, field by field. *)
Lemma place_whole s name asz i r :
  blocks s !! i = Some r → ¬ asz < size (objects s !!! r) →
  let b := objects s !!! r in
  place s name asz i =
    {| total_memory := total_memory s;
       objects := <[r := Block (start b) (size b) false (Some name)]> (objects s);
       blocks := blocks s;
       process_map := <[Some name := r]> (process_map s) |}.
Proof.
  intros Hi Hlt. cbv zeta. unfold place.
  rewrite (list_lookup_total_correct _ _ _ Hi).
  set (b := objects s !!! r) in *.
  destruct (Z.ltb_spec asz (size b)) as [|_]; [lia|]. simpl.
  by rewrite (list_lookup_total_correct _ _ _ Hi).
Qed.

Lemma layout_lookup_ref s i b :
  layout s !! i = Some b → ∃ r, blocks s !! i = Some r ∧ b = objects s !!! r.
Proof.
  unfold layout. rewrite layout_of_lookup. intros H.
  destruct (blocks s !! i) as [r|]; [|done]. exists r. split; [done|].
  simpl in H. by injection H.
Qed.

Lemma split_at_ref (refs : list nat) i r :
  refs !! i = Some r → NoDup refs →
  refs = take i refs ++ r :: drop (S i) refs ∧
  (r ∉ take i refs) ∧ (r ∉ drop (S i) refs).
Proof.
  intros Hi Hnd. pose proof (take_drop_middle _ _ _ Hi) as E.
  split; [done|]. rewrite <- E in Hnd.
  apply NoDup_app in Hnd as (_ & Hpre & Hpost).
  apply NoDup_cons in Hpost as [Hpost _]. split; [|done].
  intros Hin. apply (Hpre _ Hin). left.
Qed.

(** The layout after [place]: the chosen block is replaced by its pieces. *)
Lemma layout_place s name asz i b :
  well_formed s → layout s !! i = Some b → asz ≤ size b →
  layout (place s name asz i) =
    take i (layout s) ++ pieces name asz b ++ drop (S i) (layout s).
Proof.
  intros [Hnd Hval] Hb Hle.
  destruct (layout_lookup_ref _ _ _ Hb) as (r & Hi & Eb).
  destruct (Forall_take_drop _ _ i Hval) as [Hpre _].
  destruct (Forall_take_drop _ _ (S i) Hval) as [_ Hpost].
  unfold pieces. destruct (decide (size b = asz)) as [Heq|Hne].
  - rewrite (place_whole s name asz i r Hi) by (rewrite <- Eb; lia).
    cbv zeta. rewrite <- Eb. unfold layout; simpl.
    destruct (split_at_ref _ _ _ Hi Hnd) as (Esplit & Hnpre & Hnpost).
    rewrite Esplit at 1. rewrite layout_of_app, layout_of_cons.
    rewrite !layout_of_untouched by done.
    rewrite store_insert_eq.
    + rewrite layout_of_take, layout_of_drop. by rewrite Heq.
    + rewrite Forall_forall in Hval. apply Hval.
      by eapply list_elem_of_lookup_2.
  - rewrite (place_split s name asz i r Hi) by (rewrite <- Eb; lia).
    cbv zeta. rewrite <- Eb. unfold layout; simpl.
    rewrite layout_of_app, !layout_of_cons.
    rewrite !layout_of_grown by done.
    rewrite store_app_new.
    replace (objects s ++ [Block (start b) asz false (Some name);
                           Block (start b + asz) (size b - asz) true None])
      with ((objects s ++ [Block (start b) asz false (Some name)]) ++
            [Block (start b + asz) (size b - asz) true None])
      by (by rewrite <- app_assoc).
    replace (S (length (objects s)))
      with (length (objects s ++ [Block (start b) asz false (Some name)]))
      by (rewrite length_app; simpl; lia).
    rewrite store_app_new.
    by rewrite layout_of_take, layout_of_drop.
Qed.

(** The registry after [place]: one more entry, for the block now at the
    chosen index. *)
Lemma registry_place s name asz i r0 :
  blocks s !! i = Some r0 →
  ∃ r, blocks (place s name asz i) !! i = Some r ∧
       process_map (place s name asz i) = <[Some name := r]> (process_map s).
Proof.
  intros Hi. pose proof (lookup_lt_Some _ _ _ Hi) as Hlen.
  destruct (decide (asz < size (objects s !!! r0))) as [Hlt|Hge].
  - rewrite (place_split s name asz i r0 Hi Hlt). simpl.
    exists (length (objects s)). split; [|done].
    rewrite lookup_app_r by (rewrite length_take; lia).
    rewrite length_take. by replace (i - i `min` length (blocks s))%nat with 0%nat by lia.
  - rewrite (place_whole s name asz i r0 Hi Hge). simpl. by exists r0.
Qed.


Lemma well_formed_init total : well_formed (__init__ total).
Proof.
  split; simpl.
  - apply NoDup_singleton.
  - repeat constructor.
Qed.

(** The rule of the specification names the least power of two that is at
    least a positive request. *)
Lemma rounded_request_size_least sz :
  0 < sz →
  let p := rounded_request_size sz true in
  sz ≤ p ∧ (∃ k, 0 ≤ k ∧ p = 2 ^ k) ∧ ∀ k, 0 ≤ k → sz ≤ 2 ^ k → p ≤ 2 ^ k.
Proof.
  intros Hpos. cbv zeta. unfold rounded_request_size.
  destruct (Z.leb_spec sz 0) as [?|_]; [lia|].
  split; [|split].
  - destruct (Z.eq_dec sz 1) as [->|]; [done|].
    apply (Z.log2_up_spec sz). lia.
  - exists (Z.log2_up sz). split; [apply Z.log2_up_nonneg | done].
  - intros k Hk Hle. apply Z.pow_le_mono_r; [lia|].
    apply Z.log2_up_le_pow2; done.
Qed.

Lemma reachable_foldl log2_ceil cs s :
  reachable log2_ceil s → reachable log2_ceil (foldl (run log2_ceil) s cs).
Proof.
  revert s. induction cs as [|c cs IH]; intros s Hs; [done|].
  simpl. apply IH. by apply reachable_run.
Qed.





(** ** Deallocation: freeing the block *)

Lemma owned_by_dec name b :
  negb (is_free b) && bool_decide (process_name b = Some name) = true ↔ owned_by name b.
Proof.
  unfold owned_by. rewrite andb_true_iff, negb_true_iff, bool_decide_eq_true. done.
Qed.

(** The loop either finds no block of [name] and changes nothing, or frees
    the first one it meets. *)
Lemma free_first_cases h name refs :
  (free_first h name refs = h ∧ ∀ r, r ∈ refs → ¬ owned_by name (h !!! r)) ∨
  (∃ r, r ∈ refs ∧ owned_by name (h !!! r) ∧
        free_first h name refs =
          <[r := Block (start (h !!! r)) (size (h !!! r)) true None]> h).
Proof.
  induction refs as [|r refs IH]; simpl.
  - left. split; [done|]. intros r Hin. by apply elem_of_nil in Hin.
  - destruct (negb (is_free (h !!! r)) && bool_decide (process_name (h !!! r) = Some name))
      eqn:E.
    + right. exists r. split; [left|]. split; [by apply owned_by_dec | done].
    + assert (¬ owned_by name (h !!! r)) as Hno.
      { intros H. apply owned_by_dec in H. congruence. }
      destruct IH as [[Eq Hnone]|(r' & Hin & Hown & Eq)].
      * left. split; [done|]. intros r' Hin.
        apply elem_of_cons in Hin as [->|Hin]; [done | by apply Hnone].
      * right. exists r'. split; [by right | done].
Qed.

Lemma free_first_layout h name refs pre :
  NoDup (pre ++ refs) → Forall (λ r, (r < length h)%nat) (pre ++ refs) →
  layout_of (free_first h name refs) (pre ++ refs) =
    layout_of h pre ++ free_first_of name (layout_of h refs).
Proof.
  revert pre. induction refs as [|r refs IH]; intros pre Hnd Hval.
  - simpl. rewrite app_nil_r. change (layout_of h []) with (@nil MemoryBlock).
    simpl. by rewrite app_nil_r.
  - simpl.
    destruct (negb (is_free (h !!! r)) && bool_decide (process_name (h !!! r) = Some name)).
    + rewrite layout_of_app, layout_of_cons.
      apply NoDup_app in Hnd as (_ & Hpre & Hpost).
      apply NoDup_cons in Hpost as [Hpost _].
      rewrite !layout_of_untouched; [|done|].
      * rewrite store_insert_eq; [done|].
        rewrite Forall_forall in Hval. apply Hval. set_solver.
      * intros Hin. apply (Hpre _ Hin). left.
    + replace (pre ++ r :: refs) with ((pre ++ [r]) ++ refs) in *
        by (by rewrite <- app_assoc).
      rewrite IH by done. rewrite layout_of_app. by rewrite <- app_assoc.
Qed.

(** Freeing changes no address and no size. *)
Lemma free_first_of_chain name a bs t :
  chain a bs t → chain a (free_first_of name bs) t.
Proof.
  revert a. induction bs as [|b bs IH]; intros a; [done|].
  intros (Hs & Hp & H). simpl.
  destruct (negb (is_free b) && bool_decide (process_name b = Some name)).
  - simpl. done.
  - simpl. split; [done|]. split; [done|]. by apply IH.
Qed.

Lemma free_first_of_nil_inv name bs : free_first_of name bs = [] → bs = [].
Proof.
  destruct bs as [|b bs]; [done|]. simpl.
  by destruct (negb (is_free b) && bool_decide (process_name b = Some name)).
Qed.

(** ** Deallocation: merging *)

(** The inner loop: the free blocks right after [current] are added to it,
    up to the first allocated block. *)
Lemma absorb_spec h current rest :
  (current < length h)%nat → current ∉ rest →
  ∃ run rest',
    rest = run ++ rest' ∧
    Forall (λ r, is_free (h !!! r) = true) run ∧
    is_free <$> head (layout_of h rest') ≠ Some true ∧
    (absorb h current rest).2 = rest' ∧
    length (absorb h current rest).1 = length h ∧
    (absorb h current rest).1 !!! current =
      grow (h !!! current) (sum_sizes (layout_of h run)) ∧
    ∀ r, r ≠ current → (absorb h current rest).1 !!! r = h !!! r.
Proof.
  revert h. induction rest as [|j rest IH]; intros h Hcur Hnotin.
  - exists [], []. simpl. rewrite grow_zero. done.
  - simpl. destruct (is_free (h !!! j)) eqn:Ej.
    + assert (current ≠ j) as Hne by set_solver.
      set (h1 := <[current := grow (h !!! current) (size (h !!! j))]> h).
      assert (∀ r, r ≠ current → h1 !!! r = h !!! r) as Hsame.
      { intros r Hr. apply store_insert_ne. congruence. }
      destruct (IH h1) as (run & rest' & Erest & Hrun & Hhead & Hrest & Hlen & Hc & Hother).
      { unfold h1. by rewrite length_insert. }
      { set_solver. }
      subst rest.
      assert (layout_of h1 run = layout_of h run) as Erun.
      { apply layout_of_untouched. set_solver. }
      assert (layout_of h1 rest' = layout_of h rest') as Erest.
      { apply layout_of_untouched. set_solver. }
      exists (j :: run), rest'. split; [done|]. split.
      { constructor; [done|]. rewrite Forall_forall in Hrun |- *.
        intros r Hin. rewrite <- (Hsame r); [by apply Hrun|]. set_solver. }
      split; [by rewrite <- Erest|]. split; [done|]. split.
      { rewrite Hlen. unfold h1. by rewrite length_insert. }
      split.
      { rewrite Hc, Erun. unfold h1. rewrite store_insert_eq by done.
        rewrite grow_grow. by rewrite (layout_of_cons h j run). }
      intros r Hr. rewrite Hother by done. by apply Hsame.
    + exists [], (j :: rest). rewrite layout_of_cons.
      change (layout_of h []) with (@nil MemoryBlock). simpl.
      rewrite grow_zero, Ej. done.
Qed.

Lemma layout_of_ext h h' refs :
  (∀ r, r ∈ refs → h' !!! r = h !!! r) → layout_of h' refs = layout_of h refs.
Proof.
  induction refs as [|r refs IH]; [done|]. intros H.
  rewrite !layout_of_cons, IH by set_solver. f_equal. apply H. left.
Qed.

Lemma layout_of_Forall h (P : MemoryBlock → Prop) refs :
  Forall (λ r, P (h !!! r)) refs → Forall P (layout_of h refs).
Proof.
  induction 1 as [|r refs Hr _ IH]; [constructor|].
  rewrite layout_of_cons. by constructor.
Qed.

Lemma merge_result_nil h : merge_result h [] h [].
Proof. split; done. Qed.

(** The outer loop, for enough fuel: the blocks that come out are the blocks
    that went in with every free run collapsed into its first block. *)
Lemma merge_loop_spec fuel :
  ∀ h todo merged,
    (length todo ≤ fuel)%nat → NoDup todo →
    Forall (λ r, (r < length h)%nat) todo →
    ∃ h' out, merge_loop fuel h todo merged = (h', merged ++ out) ∧
              merge_result h todo h' out.
Proof.
  induction fuel as [|fuel IH]; intros h todo merged Hfuel Hnd Hval.
  { destruct todo; [|simpl in Hfuel; lia].
    exists h, []. split; [by rewrite app_nil_r | apply merge_result_nil]. }
  destruct todo as [|current rest].
  { exists h, []. split; [by rewrite app_nil_r | apply merge_result_nil]. }
  apply NoDup_cons in Hnd as [Hnotin Hnd].
  apply Forall_cons in Hval as [Hcur Hval].
  simpl in Hfuel. simpl. destruct (is_free (h !!! current)) eqn:Efree.
  - destruct (absorb_spec h current rest Hcur Hnotin)
      as (run & rest' & -> & Hrun & Hhead & Hrest & Hlen & Hc & Hother).
    destruct (absorb h current (run ++ rest')) as [h1 rest''].
    simpl in Hrest, Hlen, Hc, Hother. subst rest''.
    apply NoDup_app in Hnd as (_ & _ & Hnd').
    apply Forall_app in Hval as [_ Hval'].
    assert (current ∉ rest') as Hnotin' by set_solver.
    destruct (IH h1 rest' (merged ++ [current])) as (h' & out & Eq & Hres).
    { rewrite length_app in Hfuel. lia. }
    { done. }
    { by rewrite Hlen. }
    exists h', (current :: out). split.
    { rewrite Eq. by rewrite <- app_assoc. }
    destruct Hres as [Hl Hlen' Hsub Hflags Halloc Hout Hkept].
    assert (layout_of h1 rest' = layout_of h rest') as Erest.
    { apply layout_of_ext. intros r Hin. apply Hother. by intros ->. }
    split.
    + rewrite layout_of_cons, (layout_of_cons h current), layout_of_app.
      rewrite coalesce_run; [|done| |done].
      * rewrite Hl, Erest. f_equal. rewrite Hout by done. done.
      * by apply layout_of_Forall.
    + by rewrite Hlen'.
    + apply sublist_skip. by apply sublist_inserts_l.
    + intros r. destruct (Hflags r) as [-> ->].
      destruct (decide (r = current)) as [->|Hne].
      * rewrite Hc. done.
      * by rewrite Hother.
    + intros r Hr. assert (r ≠ current) as Hne by congruence.
      rewrite Halloc; [by apply Hother|]. by rewrite Hother.
    + intros r Hr. rewrite not_elem_of_cons, not_elem_of_app in Hr.
      destruct Hr as [Hne [_ Hr]]. rewrite Hout by done. by apply Hother.
    + intros r Hin Hr. assert (r ≠ current) as Hne by congruence.
      right. apply Hkept; [|by rewrite Hother].
      apply elem_of_cons in Hin as [?|Hin]; [done|].
      apply elem_of_app in Hin as [Hin|Hin]; [|done].
      rewrite Forall_forall in Hrun. specialize (Hrun _ Hin). simpl in Hrun.
      congruence.
  - destruct (IH h rest (merged ++ [current])) as (h' & out & Eq & Hres);
      [lia | done | done |].
    exists h', (current :: out). split.
    { rewrite Eq. by rewrite <- app_assoc. }
    destruct Hres as [Hl Hlen' Hsub Hflags Halloc Hout Hkept].
    split.
    + rewrite layout_of_cons, (layout_of_cons h current).
      rewrite coalesce_allocated by done. rewrite Hl, Hout by done. done.
    + done.
    + by apply sublist_skip.
    + done.
    + done.
    + intros r Hr. apply not_elem_of_cons in Hr as [_ Hr]. by apply Hout.
    + intros r Hin Hr. apply elem_of_cons in Hin as [->|Hin]; [left|].
      right. by apply Hkept.
Qed.

Lemma absorb_shorter h current rest :
  (length (absorb h current rest).2 ≤ length rest)%nat.
Proof.
  revert h. induction rest as [|j rest IH]; intros h; simpl; [done|].
  destruct (is_free (h !!! j)); simpl; [|done].
  specialize (IH (<[current := grow (h !!! current) (size (h !!! j))]> h)). lia.
Qed.

(** The loop is total: any fuel from [length todo] on gives the same result,
    whatever the store and the list hold. *)
Lemma merge_loop_fuel fuel fuel' h todo merged :
  (length todo ≤ fuel)%nat → (length todo ≤ fuel')%nat →
  merge_loop fuel h todo merged = merge_loop fuel' h todo merged.
Proof.
  revert fuel' h todo merged.
  induction fuel as [|fuel IH]; intros fuel' h todo merged H1 H2.
  - destruct todo; [|simpl in H1; lia]. by destruct fuel'.
  - destruct todo as [|current rest]; [by destruct fuel'|].
    destruct fuel' as [|fuel']; [simpl in H2; lia|].
    simpl in *. destruct (is_free (h !!! current)).
    + pose proof (absorb_shorter h current rest) as Hs.
      destruct (absorb h current rest) as [h1 rest']. simpl in Hs.
      apply IH; lia.
    + apply IH; lia.
Qed.

Lemma coalesce_short bs : (length bs ≤ 1)%nat → coalesce bs = bs.
Proof. destruct bs as [|b [|??]]; simpl; [done | done | lia]. Qed.

(** [_merge_free_blocks] as a whole. *)
Lemma merge_free_blocks_spec s :
  well_formed s →
  ∃ h' out,
    _merge_free_blocks s =
      {| total_memory := total_memory s; objects := h'; blocks := out;
         process_map := process_map s |} ∧
    merge_result (objects s) (blocks s) h' out.
Proof.
  intros [Hnd Hval]. unfold _merge_free_blocks.
  destruct (Nat.leb_spec (length (blocks s)) 1) as [Hshort|Hlong].
  - exists (objects s), (blocks s). split; [by destruct s|].
    split; try done.
    rewrite coalesce_short; [done|]. by rewrite layout_of_length.
  - destruct (merge_loop_spec (length (blocks s)) (objects s) (blocks s) [])
      as (h' & out & Eq & Hres); [done..|].
    rewrite Eq. by exists h', out.
Qed.

Lemma free_first_length h name refs :
  length (free_first h name refs) = length h.
Proof.
  destruct (free_first_cases h name refs) as [[-> _]|(r & _ & _ & ->)]; [done|].
  by rewrite length_insert.
Qed.

Lemma well_formed_sublist (h : list MemoryBlock) refs (h' : list MemoryBlock) out :
  NoDup refs → Forall (λ r, (r < length h)%nat) refs →
  sublist out refs → length h' = length h →
  NoDup out ∧ Forall (λ r, (r < length h')%nat) out.
Proof.
  intros Hnd Hval Hsub Hlen. split; [by eapply sublist_NoDup|].
  rewrite Hlen. rewrite Forall_forall in Hval |- *.
  intros r Hin. apply Hval. by eapply elem_of_sublist.
Qed.

(** The layout after a successful [deallocate]: the first block of [name] is
    freed, then free runs are collapsed. *)
Lemma layout_deallocate s name :
  well_formed s → is_Some (process_map s !! Some name) →
  (deallocate s name).1 = (true, "Process '" +:+ name +:+ "' deallocated") ∧
  total_memory (deallocate s name).2 = total_memory s ∧
  process_map (deallocate s name).2 = delete (Some name) (process_map s) ∧
  layout (deallocate s name).2 = coalesce (free_first_of name (layout s)) ∧
  well_formed (deallocate s name).2.
Proof.
  intros [Hnd Hval] [r0 Hr0]. unfold deallocate. rewrite Hr0.
  set (s1 := {| total_memory := total_memory s;
                objects := free_first (objects s) name (blocks s);
                blocks := blocks s;
                process_map := delete (Some name) (process_map s) |}).
  assert (well_formed s1) as Hwf1.
  { split; [done|]. simpl. by rewrite free_first_length. }
  destruct (merge_free_blocks_spec s1 Hwf1) as (h' & out & Eq & Hres).
  simpl. rewrite Eq. simpl. do 3 (split; [done|]).
  destruct Hres as [Hl Hlen Hsub _ _ _ _]. split.
  - unfold layout; simpl. rewrite Hl. simpl. f_equal.
    apply (free_first_layout (objects s) name (blocks s) []); done.
  - destruct Hwf1 as [Hnd1 Hval1].
    by apply (well_formed_sublist (objects s1) (blocks s1)).
Qed.

(** ** Compaction *)

Lemma allocated_refs_layout h refs :
  layout_of h (allocated_refs h refs) =
    filter (λ b, is_free b = false) (layout_of h refs).
Proof.
  unfold allocated_refs. induction refs as [|r refs IH]; [done|].
  rewrite layout_of_cons, !filter_cons. simpl.
  destruct (decide (is_free (h !!! r) = false)).
  - by rewrite layout_of_cons, IH.
  - done.
Qed.

Lemma allocated_refs_valid (h h' : list MemoryBlock) refs :
  Forall (λ r, (r < length h')%nat) refs →
  Forall (λ r, (r < length h')%nat) (allocated_refs h refs).
Proof.
  rewrite !Forall_forall. intros H r Hin.
  apply list_elem_of_filter in Hin as [_ Hin]. by apply H.
Qed.

Lemma layout_of_fresh h l :
  layout_of (h ++ l) (seq (length h) (length l)) = l.
Proof.
  revert h. induction l as [|b l IH]; intros h; [done|].
  simpl. rewrite layout_of_cons, store_app_new. f_equal.
  replace (h ++ b :: l) with ((h ++ [b]) ++ l) by (by rewrite <- app_assoc).
  replace (S (length h)) with (length (h ++ [b])) by (rewrite length_app; simpl; lia).
  apply IH.
Qed.

Lemma repack_length a bs : length (repack a bs) = length bs.
Proof. revert a. induction bs as [|b bs IH]; intros a; simpl; [done|]. by rewrite IH. Qed.

(** The compaction loop, in one step: the new blocks are appended to the
    store in order, their references listed, their owners registered. *)
Lemma relocate_spec h pm allocated a new_blocks :
  Forall (λ r, (r < length h)%nat) allocated →
  relocate h pm allocated a new_blocks =
    (h ++ repack a (layout_of h allocated),
     register_all pm (process_name <$> layout_of h allocated) (length h),
     new_blocks ++ seq (length h) (length allocated),
     a + sum_sizes (layout_of h allocated)).
Proof.
  revert h pm a new_blocks.
  induction allocated as [|r rest IH]; intros h pm a new_blocks Hval.
  - simpl. change (layout_of h []) with (@nil MemoryBlock). simpl.
    by rewrite !app_nil_r, Z.add_0_r.
  - apply Forall_cons in Hval as [Hr Hval]. cbn [relocate].
    rewrite IH.
    + rewrite layout_of_grown by done. rewrite layout_of_cons. simpl.
      rewrite length_app. simpl.
      replace (length h + 1)%nat with (S (length h)) by lia.
      rewrite <- !app_assoc. simpl. f_equal. lia.
    + rewrite length_app. simpl. eapply Forall_impl; [done|]. simpl. lia.
Qed.

Lemma register_all_notin pm names r k :
  k ∉ names → register_all pm names r !! k = pm !! k.
Proof.
  revert pm r. induction names as [|k0 names IH]; intros pm r Hnot; [done|].
  simpl. rewrite IH by set_solver. apply lookup_insert_ne. set_solver.
Qed.

(** The last write for a key is the one that stays. *)
Lemma register_all_last pm names r i k :
  names !! i = Some k → (∀ j, (i < j)%nat → names !! j ≠ Some k) →
  register_all pm names r !! k = Some (r + i)%nat.
Proof.
  revert pm r i. induction names as [|k0 names IH]; intros pm r i Hi Hlast; [done|].
  destruct i as [|i]; simpl in *.
  - injection Hi as ->. rewrite register_all_notin.
    + rewrite lookup_insert_eq. f_equal. lia.
    + intros Hin. apply list_elem_of_lookup in Hin as [j Hj].
      apply (Hlast (S j)); [lia | done].
  - rewrite (IH _ _ i Hi).
    + f_equal. lia.
    + intros j Hj. apply (Hlast (S j)). lia.
Qed.

Lemma repack_chain a bs :
  Forall (λ b, 0 < size b) bs → chain a (repack a bs) (a + sum_sizes bs).
Proof.
  intros H. revert a. induction H as [|b bs Hb _ IH]; intros a; simpl.
  - lia.
  - split; [done|]. split; [done|]. unfold block_end; simpl.
    replace (a + (size b + sum_sizes bs)) with (a + size b + sum_sizes bs) by lia.
    apply IH.
Qed.

Lemma repack_lookup a bs i b' :
  repack a bs !! i = Some b' ↔
  ∃ b, bs !! i = Some b ∧
       b' = Block (a + sum_sizes (take i bs)) (size b) false (process_name b).
Proof.
  revert a i. induction bs as [|b0 bs IH]; intros a i; simpl.
  - split; [done | by intros (? & ? & _)].
  - destruct i as [|i]; simpl.
    + rewrite Z.add_0_r. split.
      * intros [= <-]. by exists b0.
      * intros (b & [= <-] & ->). done.
    + rewrite IH. by rewrite Z.add_assoc.
Qed.

Lemma repack_all_allocated a bs : Forall (λ b, is_free b = false) (repack a bs).
Proof. revert a. induction bs as [|b bs IH]; intros a; simpl; by constructor. Qed.

Lemma count_free_app l1 l2 : count_free (l1 ++ l2) = (count_free l1 + count_free l2)%nat.
Proof. induction l1 as [|b l1 IH]; simpl; [done|]. rewrite IH. lia. Qed.

Lemma count_free_allocated bs :
  Forall (λ b, is_free b = false) bs → count_free bs = 0%nat.
Proof. induction 1 as [|b bs Hb _ IH]; simpl; [done|]. by rewrite Hb, IH. Qed.

(** The state after a successful [compact], field by field. *)
Lemma compact_state s :
  well_formed s → allocated_refs (objects s) (blocks s) ≠ [] →
  let refs := allocated_refs (objects s) (blocks s) in
  let A := layout_of (objects s) refs in
  let h := objects s ++ repack 0 A in
  let pm := register_all (process_map s) (process_name <$> A) (length (objects s)) in
  let moved := seq (length (objects s)) (length refs) in
  compact s =
    ((true, "Memory compacted successfully", Z.of_nat (length refs)),
     if decide (sum_sizes A < total_memory s)
     then {| total_memory := total_memory s;
             objects := h ++ [Block (sum_sizes A) (total_memory s - sum_sizes A) true None];
             blocks := moved ++ [length h];
             process_map := pm |}
     else {| total_memory := total_memory s; objects := h; blocks := moved;
             process_map := pm |}).
Proof.
  intros [Hnd Hval] Hne. cbv zeta. unfold compact.
  destruct (allocated_refs (objects s) (blocks s)) as [|r refs] eqn:E; [done|].
  rewrite relocate_spec.
  - rewrite Z.add_0_l.
    set (A := layout_of (objects s) (r :: refs)).
    destruct (Z.ltb_spec 0 (total_memory s - sum_sizes A));
      destruct (decide (sum_sizes A < total_memory s)); try lia; done.
  - rewrite <- E. by apply allocated_refs_valid.
Qed.

Lemma allocated_refs_nil s :
  allocated_refs (objects s) (blocks s) = [] ↔
  filter (λ b, is_free b = false) (layout s) = [].
Proof.
  unfold layout. rewrite <- allocated_refs_layout. split.
  - by intros ->.
  - intros H. apply (f_equal length) in H. rewrite layout_of_length in H.
    by apply nil_length_inv.
Qed.

(** The layout and registry after a successful [compact]. *)
Lemma layout_compact s :
  well_formed s →
  let A := filter (λ b, is_free b = false) (layout s) in
  A ≠ [] →
  (compact s).1 = (true, "Memory compacted successfully", Z.of_nat (length A)) ∧
  total_memory (compact s).2 = total_memory s ∧
  layout (compact s).2 =
    repack 0 A ++
    (if decide (sum_sizes A < total_memory s)
     then [Block (sum_sizes A) (total_memory s - sum_sizes A) true None]
     else []) ∧
  process_map (compact s).2 =
    register_all (process_map s) (process_name <$> A) (length (objects s)) ∧
  (∀ i, (i < length A)%nat →
        blocks (compact s).2 !! i = Some (length (objects s) + i)%nat).
Proof.
  intros Hwf A HA.
  assert (allocated_refs (objects s) (blocks s) ≠ []) as Hne.
  { intros H. apply allocated_refs_nil in H. done. }
  rewrite (compact_state s Hwf Hne). cbv zeta.
  assert (layout_of (objects s) (allocated_refs (objects s) (blocks s)) = A) as EA.
  { apply allocated_refs_layout. }
  assert (length (allocated_refs (objects s) (blocks s)) = length A) as El.
  { by rewrite <- EA, layout_of_length. }
  rewrite EA, El. simpl.
  assert (layout_of (objects s ++ repack 0 A) (seq (length (objects s)) (length A))
          = repack 0 A) as Hfresh.
  { rewrite <- (repack_length 0 A). apply layout_of_fresh. }
  split; [done|].
  destruct (decide (sum_sizes A < total_memory s)); simpl.
  - split; [done|]. split.
    + unfold layout; simpl. rewrite layout_of_app.
      rewrite layout_of_grown.
      * rewrite Hfresh. f_equal. rewrite layout_of_cons. f_equal.
        apply store_app_new.
      * apply Forall_seq. intros j Hj. rewrite length_app, repack_length. lia.
    + split; [done|]. intros i Hi.
      rewrite lookup_app_l by (by rewrite length_seq).
      by apply lookup_seq_lt.
  - split; [done|]. split.
    + unfold layout; simpl. by rewrite Hfresh, app_nil_r.
    + split; [done|]. intros i Hi. by apply lookup_seq_lt.
Qed.

(** ** Well-formedness and the registry link are invariants *)

Lemma well_formed_initialize s : well_formed (_initialize_memory s).
Proof.
  split; simpl.
  - apply NoDup_singleton.
  - constructor; [|constructor]. rewrite length_app. simpl. lia.
Qed.

Lemma linked_initialize s : linked (_initialize_memory s).
Proof.
  unfold linked; simpl. split; [|split].
  - intros k r H. by rewrite lookup_empty in H.
  - intros r Hin Hr. apply list_elem_of_singleton in Hin as ->.
    by rewrite store_app_new in Hr.
  - intros r Hin _. apply list_elem_of_singleton in Hin as ->.
    by rewrite store_app_new.
Qed.

Lemma blocks_split_elem (refs : list nat) i r0 r :
  refs !! i = Some r0 →
  r ∈ refs ↔ r ∈ take i refs ∨ r = r0 ∨ r ∈ drop (S i) refs.
Proof.
  intros Hi. rewrite <- (take_drop_middle _ _ _ Hi) at 1.
  rewrite elem_of_app, elem_of_cons. done.
Qed.

Lemma well_formed_place s name asz i r0 :
  well_formed s → blocks s !! i = Some r0 → well_formed (place s name asz i).
Proof.
  intros [Hnd Hval] Hi.
  destruct (decide (asz < size (objects s !!! r0))) as [Hlt|Hge].
  - rewrite (place_split s name asz i r0 Hi Hlt). cbv zeta.
    destruct (split_at_ref _ _ _ Hi Hnd) as (Esplit & Hnpre & Hnpost).
    rewrite Esplit in Hnd, Hval.
    apply NoDup_app in Hnd as (Hnd1 & Hdisj & Hnd2).
    apply NoDup_cons in Hnd2 as [_ Hnd2].
    apply Forall_app in Hval as [Hv1 Hv2]. apply Forall_cons in Hv2 as [_ Hv2].
    rewrite Forall_forall in Hv1, Hv2.
    split; simpl.
    + apply NoDup_app. split; [done|]. split.
      * intros r Hin Hin'. specialize (Hv1 _ Hin). simpl in Hv1.
        apply elem_of_cons in Hin' as [->|Hin']; [lia|].
        apply elem_of_cons in Hin' as [->|Hin']; [lia|].
        apply (Hdisj _ Hin). by right.
      * apply NoDup_cons. split.
        { intros Hin. apply elem_of_cons in Hin as [?|Hin]; [lia|].
          specialize (Hv2 _ Hin). simpl in Hv2. lia. }
        apply NoDup_cons. split; [|done].
        intros Hin. specialize (Hv2 _ Hin). simpl in Hv2. lia.
    + rewrite length_app. simpl.
      apply Forall_forall. intros r Hin.
      rewrite !elem_of_app, !elem_of_cons in Hin.
      destruct Hin as [Hin|[->|[->|Hin]]];
        [specialize (Hv1 _ Hin)| | |specialize (Hv2 _ Hin)]; simpl in *; lia.
  - rewrite (place_whole s name asz i r0 Hi Hge). cbv zeta.
    split; simpl; [done|]. by rewrite length_insert.
Qed.

Lemma linked_place s name asz i r0 :
  well_formed s → linked s →
  process_map s !! Some name = None →
  blocks s !! i = Some r0 → is_free (objects s !!! r0) = true →
  linked (place s name asz i).
Proof.
  intros [Hnd Hval] (L1 & L2 & L3) Hnone Hi Hfree.
  rewrite Forall_forall in Hval.
  assert (r0 ∈ blocks s) as Hr0 by (by eapply list_elem_of_lookup_2).
  pose proof (Hval _ Hr0) as Hr0v. simpl in Hr0v.
  destruct (decide (asz < size (objects s !!! r0))) as [Hlt|Hge].
  - rewrite (place_split s name asz i r0 Hi Hlt). cbv zeta.
    set (a := Block (start (objects s !!! r0)) asz false (Some name)).
    set (rem := Block (start (objects s !!! r0) + asz)
                      (size (objects s !!! r0) - asz) true None).
    set (n0 := length (objects s)).
    assert ((objects s ++ [a; rem]) !!! n0 = a) as Ea by apply store_app_new.
    assert ((objects s ++ [a; rem]) !!! S n0 = rem) as Erem.
    { replace (objects s ++ [a; rem]) with ((objects s ++ [a]) ++ [rem])
        by (by rewrite <- app_assoc).
      replace (S n0) with (length (objects s ++ [a]))
        by (rewrite length_app; simpl; lia).
      apply store_app_new. }
    assert (∀ r, r ∈ blocks s → (objects s ++ [a; rem]) !!! r = objects s !!! r) as Eold.
    { intros r Hin. apply store_app_old. by apply Hval. }
    assert (∀ r, r ∈ take i (blocks s) ++ [n0; S n0] ++ drop (S i) (blocks s) ↔
                 (r ∈ blocks s ∧ r ≠ r0) ∨ r = n0 ∨ r = S n0) as Hmem.
    { intros r. rewrite !elem_of_app, !elem_of_cons, elem_of_nil.
      rewrite (blocks_split_elem _ _ _ r Hi).
      destruct (split_at_ref _ _ _ Hi Hnd) as (_ & Hnpre & Hnpost).
      split.
      - intros [H|[H|H]].
        + left. split; [by left|]. by intros ->.
        + destruct H as [->|[->|H]]; [by auto | by auto | done].
        + left. split; [by auto|]. by intros ->.
      - intros [[[H|[H|H]] Hne]|[H|H]]; by auto. }
    unfold linked; simpl. split; [|split].
    + intros k r Hk. destruct (decide (k = Some name)) as [->|Hne].
      * rewrite lookup_insert_eq in Hk. injection Hk as <-.
        rewrite Hmem, Ea. by auto.
      * rewrite lookup_insert_ne in Hk by done.
        destruct (L1 _ _ Hk) as (Hin & Hnf & Hname).
        rewrite Hmem, Eold by done. split; [|done].
        left. split; [done|]. intros ->. congruence.
    + intros r Hin Hnf. apply Hmem in Hin as [[Hin Hne]|[->| ->]].
      * rewrite Eold in Hnf |- * by done.
        destruct (L2 _ Hin Hnf) as [Hpm Hsome]. split; [|done].
        rewrite lookup_insert_ne; [done|]. intros E. rewrite <- E in Hpm. congruence.
      * rewrite Ea. simpl. by rewrite lookup_insert_eq.
      * by rewrite Erem in Hnf.
    + intros r Hin Hfr. apply Hmem in Hin as [[Hin Hne]|[->| ->]].
      * rewrite Eold in Hfr |- * by done. by apply L3.
      * by rewrite Ea in Hfr.
      * by rewrite Erem.
  - rewrite (place_whole s name asz i r0 Hi Hge). cbv zeta.
    set (b' := Block (start (objects s !!! r0)) (size (objects s !!! r0)) false (Some name)).
    assert (<[r0 := b']> (objects s) !!! r0 = b') as Eb by (by apply store_insert_eq).
    assert (∀ r, r ≠ r0 → <[r0 := b']> (objects s) !!! r = objects s !!! r) as Eold.
    { intros r Hne. apply store_insert_ne. congruence. }
    unfold linked; simpl. split; [|split].
    + intros k r Hk. destruct (decide (k = Some name)) as [->|Hne].
      * rewrite lookup_insert_eq in Hk. injection Hk as <-. by rewrite Eb.
      * rewrite lookup_insert_ne in Hk by done.
        destruct (L1 _ _ Hk) as (Hin & Hnf & Hname).
        rewrite Eold; [done|]. intros ->. congruence.
    + intros r Hin Hnf. destruct (decide (r = r0)) as [->|Hne].
      * rewrite Eb. simpl. by rewrite lookup_insert_eq.
      * rewrite Eold in Hnf |- * by done.
        destruct (L2 _ Hin Hnf) as [Hpm Hsome]. split; [|done].
        rewrite lookup_insert_ne; [done|]. intros E. rewrite <- E in Hpm. congruence.
    + intros r Hin Hfr. destruct (decide (r = r0)) as [->|Hne].
      * by rewrite Eb in Hfr.
      * rewrite Eold in Hfr |- * by done. by apply L3.
Qed.

(** After the freeing loop of [deallocate] and the [del]. *)
Lemma linked_freed s name r0 :
  well_formed s → linked s → process_map s !! Some name = Some r0 →
  linked {| total_memory := total_memory s;
            objects := free_first (objects s) name (blocks s);
            blocks := blocks s;
            process_map := delete (Some name) (process_map s) |}.
Proof.
  intros [Hnd Hval] (L1 & L2 & L3) Hr0.
  rewrite Forall_forall in Hval.
  destruct (L1 _ _ Hr0) as (Hin0 & Hnf0 & Hname0).
  destruct (free_first_cases (objects s) name (blocks s))
    as [[_ Hnone]|(r & Hin & [Hnf Hname] & ->)].
  { exfalso. by apply (Hnone _ Hin0). }
  assert (r = r0) as ->.
  { destruct (L2 _ Hin Hnf) as [Hpm _]. rewrite Hname in Hpm. congruence. }
  set (b' := Block (start (objects s !!! r0)) (size (objects s !!! r0)) true None).
  assert (<[r0 := b']> (objects s) !!! r0 = b') as Eb.
  { apply store_insert_eq. by apply Hval. }
  assert (∀ r, r ≠ r0 → <[r0 := b']> (objects s) !!! r = objects s !!! r) as Eold.
  { intros r Hne. apply store_insert_ne. congruence. }
  unfold linked; simpl. split; [|split].
  - intros k r Hk. apply lookup_delete_Some in Hk as [Hne Hk].
    destruct (L1 _ _ Hk) as (Hin' & Hnf' & Hname').
    rewrite Eold; [done|]. intros ->. congruence.
  - intros r Hin' Hnf'. destruct (decide (r = r0)) as [->|Hne].
    + by rewrite Eb in Hnf'.
    + rewrite Eold in Hnf' |- * by done.
      destruct (L2 _ Hin' Hnf') as [Hpm Hsome]. split; [|done].
      rewrite lookup_delete_ne; [done|]. intros E. rewrite <- E in Hpm. congruence.
  - intros r Hin' Hfr. destruct (decide (r = r0)) as [->|Hne].
    + by rewrite Eb.
    + rewrite Eold in Hfr |- * by done. by apply L3.
Qed.

Lemma linked_merged s h' out :
  linked s → merge_result (objects s) (blocks s) h' out →
  linked {| total_memory := total_memory s; objects := h'; blocks := out;
            process_map := process_map s |}.
Proof.
  intros (L1 & L2 & L3) [_ _ Hsub Hflags _ _ Hkept].
  unfold linked; simpl. split; [|split].
  - intros k r Hk. destruct (L1 _ _ Hk) as (Hin & Hnf & Hname).
    destruct (Hflags r) as [-> ->]. split; [|done]. by apply Hkept.
  - intros r Hin Hnf. destruct (Hflags r) as [Ef En]. rewrite Ef in Hnf.
    rewrite En. apply L2; [|done]. by eapply elem_of_sublist.
  - intros r Hin Hfr. destruct (Hflags r) as [Ef En]. rewrite Ef in Hfr.
    rewrite En. apply L3; [|done]. by eapply elem_of_sublist.
Qed.

Lemma well_formed_deallocate s name :
  well_formed s → well_formed (deallocate s name).2.
Proof.
  intros Hwf. destruct (process_map s !! Some name) as [r0|] eqn:E.
  - apply layout_deallocate; [done|]. by rewrite E.
  - unfold deallocate. by rewrite E.
Qed.

Lemma linked_deallocate s name :
  well_formed s → linked s → linked (deallocate s name).2.
Proof.
  intros Hwf Hl. unfold deallocate.
  destruct (process_map s !! Some name) as [r0|] eqn:E; [|done]. simpl.
  set (s1 := {| total_memory := total_memory s;
                objects := free_first (objects s) name (blocks s);
                blocks := blocks s;
                process_map := delete (Some name) (process_map s) |}).
  assert (well_formed s1) as Hwf1.
  { destruct Hwf. split; [done|]. simpl. by rewrite free_first_length. }
  destruct (merge_free_blocks_spec s1 Hwf1) as (h' & out & -> & Hres).
  apply (linked_merged s1); [|done]. by eapply linked_freed.
Qed.

Lemma layout_ref s i r :
  blocks s !! i = Some r → layout s !! i = Some (objects s !!! r).
Proof. intros H. unfold layout. by rewrite layout_of_lookup, H. Qed.

(** The link, stated by position in the block list. *)
Lemma linked_by_index s :
  (∀ k r, process_map s !! k = Some r →
     ∃ i b, blocks s !! i = Some r ∧ layout s !! i = Some b ∧
            is_free b = false ∧ process_name b = k) →
  (∀ i r b, blocks s !! i = Some r → layout s !! i = Some b →
     is_free b = false →
     process_map s !! process_name b = Some r ∧ is_Some (process_name b)) →
  (∀ b, b ∈ layout s → is_free b = true → process_name b = None) →
  linked s.
Proof.
  intros H1 H2 H3. split; [|split].
  - intros k r Hk. destruct (H1 _ _ Hk) as (i & b & Hi & Hb & Hnf & Hname).
    rewrite (layout_ref _ _ _ Hi) in Hb. injection Hb as <-.
    split; [by eapply list_elem_of_lookup_2 | done].
  - intros r Hin Hnf. apply list_elem_of_lookup in Hin as [i Hi].
    by apply (H2 i r _ Hi (layout_ref _ _ _ Hi)).
  - intros r Hin Hfr. apply list_elem_of_lookup in Hin as [i Hi].
    apply H3; [|done]. eapply list_elem_of_lookup_2. by apply layout_ref.
Qed.

Lemma well_formed_compact s : well_formed s → well_formed (compact s).2.
Proof.
  intros Hwf.
  destruct (decide (allocated_refs (objects s) (blocks s) = [])) as [E|Hne].
  { unfold compact. by rewrite E. }
  rewrite (compact_state s Hwf Hne). cbv zeta. simpl.
  set (refs := allocated_refs (objects s) (blocks s)).
  set (A := layout_of (objects s) refs).
  assert (length (objects s ++ repack 0 A) = (length (objects s) + length refs)%nat) as El.
  { rewrite length_app, repack_length. unfold A. by rewrite layout_of_length. }
  clearbody A. clearbody refs.
  destruct (decide (sum_sizes A < total_memory s)); split; simpl.
  - apply NoDup_app. split; [apply NoDup_seq|]. split; [|apply NoDup_singleton].
    intros r Hin Hin'. apply list_elem_of_singleton in Hin'.
    apply elem_of_seq in Hin. lia.
  - apply Forall_app. split.
    + apply Forall_seq. intros j Hj. rewrite length_app, El. simpl. lia.
    + constructor; [|constructor]. rewrite !length_app. simpl. lia.
  - apply NoDup_seq.
  - apply Forall_seq. intros j Hj. lia.
Qed.

(** Under the link, the owners of the allocated blocks are pairwise
    distinct. *)
Lemma owners_distinct s i j bi bj :
  well_formed s → linked s →
  layout s !! i = Some bi → layout s !! j = Some bj →
  is_free bi = false → is_free bj = false →
  process_name bi = process_name bj → i = j.
Proof.
  intros [Hnd _] (_ & L2 & _) Hi Hj Hfi Hfj Hname.
  destruct (layout_lookup_ref _ _ _ Hi) as (ri & Hri & ->).
  destruct (layout_lookup_ref _ _ _ Hj) as (rj & Hrj & ->).
  destruct (L2 ri) as [Hpi _]; [by eapply list_elem_of_lookup_2 | done |].
  destruct (L2 rj) as [Hpj _]; [by eapply list_elem_of_lookup_2 | done |].
  rewrite Hname in Hpi. assert (ri = rj) as -> by congruence.
  by eapply NoDup_lookup.
Qed.

Lemma filter_lookup_inv {A} (P : A → Prop) `{∀ x, Decision (P x)} (l : list A) i x :
  filter P l !! i = Some x → ∃ j, l !! j = Some x ∧ P x.
Proof.
  intros H0. assert (x ∈ filter P l) as Hin by (by eapply list_elem_of_lookup_2).
  apply list_elem_of_filter in Hin as [HP Hin].
  apply list_elem_of_lookup in Hin as [j Hj]. by exists j.
Qed.

(** Positions in a filtered list follow positions in the list. *)
Lemma filter_lookup_mono {A} (P : A → Prop) `{∀ x, Decision (P x)} (l : list A)
    i i' x x' :
  filter P l !! i = Some x → filter P l !! i' = Some x' → (i < i')%nat →
  ∃ j j', l !! j = Some x ∧ l !! j' = Some x' ∧ (j < j')%nat.
Proof.
  revert i i'. induction l as [|y l IH]; intros i i' Hi Hi' Hlt; [done|].
  rewrite filter_cons in Hi, Hi'. destruct (decide (P y)).
  - destruct i' as [|i']; [lia|]. simpl in Hi'. destruct i as [|i]; simpl in Hi.
    + injection Hi as ->. destruct (filter_lookup_inv P l _ _ Hi') as (j' & Hj' & _).
      exists 0%nat, (S j'). split; [done|]. split; [done | lia].
    + destruct (IH i i' Hi Hi') as (j & j' & Hj & Hj' & Hjj); [lia|].
      exists (S j), (S j'). split; [done|]. split; [done | lia].
  - destruct (IH i i' Hi Hi' Hlt) as (j & j' & Hj & Hj' & Hjj).
    exists (S j), (S j'). split; [done|]. split; [done | lia].
Qed.

Lemma linked_compact s : well_formed s → linked s → linked (compact s).2.
Proof.
  intros Hwf Hl.
  set (A := filter (λ b, is_free b = false) (layout s)).
  destruct (decide (A = [])) as [E|Hne].
  { apply allocated_refs_nil in E. unfold compact. by rewrite E. }
  destruct (layout_compact s Hwf Hne) as (_ & _ & El & Epm & Eblocks).
  fold A in El, Epm, Eblocks.
  assert (∀ i b, A !! i = Some b →
            is_free b = false ∧ is_Some (process_name b)) as HA.
  { intros i b Hi. destruct (filter_lookup_inv _ _ _ _ Hi) as (j & Hj & Hnf).
    split; [done|].
    destruct (layout_lookup_ref _ _ _ Hj) as (r & Hr & ->).
    destruct Hl as (_ & L2 & _). apply L2; [|done]. by eapply list_elem_of_lookup_2. }
  assert (∀ i j bi bj, A !! i = Some bi → A !! j = Some bj →
            process_name bi = process_name bj → i = j) as Hdistinct.
  { assert (∀ i j bi bj, A !! i = Some bi → A !! j = Some bj →
              process_name bi = process_name bj → ¬ (i < j)%nat) as Hno.
    { intros i j bi bj Hi Hj Hname Hlt.
      destruct (filter_lookup_mono _ _ _ _ _ _ Hi Hj Hlt) as (k & k' & Hk & Hk' & Hkk).
      destruct (HA _ _ Hi) as [Hfi _]. destruct (HA _ _ Hj) as [Hfj _].
      pose proof (owners_distinct s k k' bi bj Hwf Hl Hk Hk' Hfi Hfj Hname). lia. }
    intros i j bi bj Hi Hj Hname.
    destruct (Nat.lt_trichotomy i j) as [Hlt|[->|Hgt]]; [|done|].
    - by destruct (Hno _ _ _ _ Hi Hj Hname).
    - by destruct (Hno _ _ _ _ Hj Hi (eq_sym Hname)). }
  assert (∀ i b, A !! i = Some b →
            process_map (compact s).2 !! process_name b
              = Some (length (objects s) + i)%nat) as Hreg.
  { intros i b Hi. rewrite Epm. apply register_all_last.
    - by rewrite list_lookup_fmap, Hi.
    - intros j Hj Hk. rewrite list_lookup_fmap in Hk.
      destruct (A !! j) as [b'|] eqn:Ej; [|done]. simpl in Hk. injection Hk as Hk.
      pose proof (Hdistinct _ _ _ _ Hi Ej (eq_sym Hk)). lia. }
  assert (∀ i b', layout (compact s).2 !! i = Some b' → is_free b' = false →
            ∃ b, A !! i = Some b ∧ process_name b' = process_name b) as Hnew.
  { intros i b' Hi Hnf. rewrite El in Hi.
    apply lookup_app_Some in Hi as [Hi|[Hlen Hi]].
    - apply repack_lookup in Hi as (b & Hb & ->). by exists b.
    - destruct (decide (sum_sizes A < total_memory s)); [|done].
      destruct (i - length (repack 0 A))%nat; [|done].
      simpl in Hi. injection Hi as <-. done. }
  apply linked_by_index.
  - intros k r Hk.
    destruct (decide (k ∈ process_name <$> A)) as [Hin|Hnotin].
    + apply list_elem_of_fmap in Hin as (b & -> & Hb).
      apply list_elem_of_lookup in Hb as [i Hi].
      rewrite (Hreg _ _ Hi) in Hk. injection Hk as <-.
      exists i, (Block (sum_sizes (take i A)) (size b) false (process_name b)).
      split; [apply Eblocks; by eapply lookup_lt_Some|].
      split; [|done]. rewrite El. apply lookup_app_l_Some.
      apply repack_lookup. exists b. by rewrite Z.add_0_l.
    + exfalso. rewrite Epm, register_all_notin in Hk by done.
      destruct Hl as (L1 & _ & _). destruct (L1 _ _ Hk) as (Hin & Hnf & Hname).
      apply Hnotin. apply list_elem_of_fmap. exists (objects s !!! r).
      split; [done|]. apply list_elem_of_filter. split; [done|].
      apply list_elem_of_lookup in Hin as [i Hi].
      eapply list_elem_of_lookup_2. by apply layout_ref.
  - intros i r b' Hr Hb' Hnf.
    destruct (Hnew _ _ Hb' Hnf) as (b & Hb & Hname).
    rewrite Eblocks in Hr by (by eapply lookup_lt_Some). injection Hr as <-.
    rewrite Hname. split; [by apply Hreg | by apply (HA i)].
  - intros b' Hin Hfr. rewrite El in Hin.
    apply elem_of_app in Hin as [Hin|Hin].
    + pose proof (repack_all_allocated 0 A) as Hall.
      rewrite Forall_forall in Hall. specialize (Hall _ Hin). simpl in Hall.
      congruence.
    + destruct (decide (sum_sizes A < total_memory s)).
      * by apply list_elem_of_singleton in Hin as ->.
      * by apply elem_of_nil in Hin.
Qed.

(** ** Every reachable state is well formed and linked *)

Lemma well_formed_run log2_ceil s c : well_formed s → well_formed (run log2_ceil s c).
Proof.
  intros Hwf. destruct c as [name sz ub|name| |n]; simpl.
  - unfold allocate. destruct (process_map s !! Some name); [done|].
    pose proof (find_best_fit_spec s (actual_size log2_ceil sz ub)) as Hfit.
    destruct (_find_best_fit s _) as [i|]; [|done]. simpl.
    destruct Hfit as (b & Hi & _).
    destruct (layout_lookup_ref _ _ _ Hi) as (r & Hr & _).
    by eapply well_formed_place.
  - by apply well_formed_deallocate.
  - by apply well_formed_compact.
  - apply well_formed_initialize.
Qed.

Lemma linked_run log2_ceil s c :
  well_formed s → linked s → linked (run log2_ceil s c).
Proof.
  intros Hwf Hl. destruct c as [name sz ub|name| |n]; simpl.
  - unfold allocate. destruct (process_map s !! Some name) eqn:E; [done|].
    pose proof (find_best_fit_spec s (actual_size log2_ceil sz ub)) as Hfit.
    destruct (_find_best_fit s _) as [i|]; [|done]. simpl.
    destruct Hfit as (b & Hi & [Hfree _] & _).
    destruct (layout_lookup_ref _ _ _ Hi) as (r & Hr & ->).
    by eapply linked_place.
  - by apply linked_deallocate.
  - by apply linked_compact.
  - apply linked_initialize.
Qed.

Lemma reachable_well_formed_linked log2_ceil s :
  reachable log2_ceil s → well_formed s ∧ linked s.
Proof.
  induction 1 as [total|s c _ [Hwf Hl]].
  - split; [apply well_formed_initialize | apply linked_initialize].
  - split; [by apply well_formed_run | by apply linked_run].
Qed.

(** The link gives the consistency the specification asks for. *)
Lemma linked_consistent s : well_formed s → linked s → registry_consistent s.
Proof.
  intros Hwf Hl. pose proof Hl as (L1 & L2 & L3). split.
  - intros k. split.
    + intros [r Hk]. destruct (L1 _ _ Hk) as (Hin & Hnf & Hname).
      exists (objects s !!! r). split; [|done].
      apply list_elem_of_lookup in Hin as [i Hi].
      eapply list_elem_of_lookup_2. by apply layout_ref.
    + intros (b & Hin & Hnf & <-). apply list_elem_of_lookup in Hin as [i Hi].
      destruct (layout_lookup_ref _ _ _ Hi) as (r & Hr & ->).
      exists r. apply L2; [|done]. by eapply list_elem_of_lookup_2.
  - done.
  - intros i j bi bj. by apply owners_distinct.
  - intros b Hin Hfr. apply list_elem_of_lookup in Hin as [i Hi].
    destruct (layout_lookup_ref _ _ _ Hi) as (r & Hr & ->).
    apply L3; [|done]. by eapply list_elem_of_lookup_2.
  - intros b Hin Hnf. apply list_elem_of_lookup in Hin as [i Hi].
    destruct (layout_lookup_ref _ _ _ Hi) as (r & Hr & ->).
    apply L2; [|done]. by eapply list_elem_of_lookup_2.
Qed.

(** C8.  In every reachable state the registry agrees with the blocks: its
    keys are the owners of the allocated blocks, each key refers to the one
    block that carries it, free blocks have no owner.  Reachable states are
    closed under all four operations with arbitrary arguments, so every
    operation preserves the agreement. *)
Theorem registry_consistent_reachable (log2_ceil : Z → Z) (s : Manager) :
  reachable log2_ceil s → registry_consistent s.
Proof.
  intros H. apply reachable_well_formed_linked in H as [Hwf Hl].
  by apply linked_consistent.
Qed.

Lemma registry_consistent_reachable_witness :
  registry_consistent
    (run log2_ceil_exact (run log2_ceil_exact (__init__ 1024)
                              (Allocate "A" 100 true)) Compact).
Proof.
  apply (registry_consistent_reachable log2_ceil_exact).
  apply reachable_run, reachable_run, reachable_init.
Defined.

(** ** The block-list invariant is preserved by sensible calls *)

Lemma pieces_chain name asz b t rest :
  0 < asz → fits asz b → 0 < size b → chain (block_end b) rest t →
  chain (start b) (pieces name asz b ++ rest) t.
Proof.
  intros Hpos [_ Hle] Hb Hch. unfold pieces.
  destruct (decide (size b = asz)) as [E|Hne]; simpl.
  - split; [done|]. split; [done|]. unfold block_end in *; simpl. by rewrite <- E.
  - split; [done|]. split; [done|]. unfold block_end in *; simpl.
    split; [done|]. split; [lia|].
    by replace (start b + asz + (size b - asz)) with (start b + size b) by lia.
Qed.

Lemma chain_place name asz a bs t i b :
  0 < asz → chain a bs t → bs !! i = Some b → fits asz b →
  chain a (take i bs ++ pieces name asz b ++ drop (S i) bs) t.
Proof.
  intros Hpos Hch Hi Hfit.
  rewrite <- (take_drop_middle _ _ _ Hi) in Hch.
  apply chain_app in Hch as (m & Hpre & Hs & Hb & Hpost).
  apply chain_app. exists m. split; [done|]. rewrite <- Hs.
  by apply pieces_chain.
Qed.

(** Replacing a free block by blocks that start with an allocated one keeps
    the list coalesced when the replacement is coalesced with what follows. *)
Lemma coalesced_replace pre b new post :
  coalesced (pre ++ b :: post) → is_free <$> head new = Some false →
  coalesced (new ++ post) → coalesced (pre ++ new ++ post).
Proof.
  intros H Hhead Hnew. induction pre as [|p pre IH]; [done|].
  simpl app in *. specialize (IH (coalesced_tail _ _ H)).
  destruct (pre ++ new ++ post) as [|c rest] eqn:E; [done|].
  split; [|done]. intros [Hp Hc]. destruct pre as [|q pre].
  - simpl in E. destruct new as [|n new]; [done|].
    simpl in E, Hhead. injection E as <- _. congruence.
  - simpl in E. injection E as <- _. destruct H as [Hn _].
    apply Hn. done.
Qed.

Lemma coalesced_place name asz bs i b :
  coalesced bs → bs !! i = Some b → is_free b = true →
  coalesced (take i bs ++ pieces name asz b ++ drop (S i) bs).
Proof.
  intros H Hi Hfree. rewrite <- (take_drop_middle _ _ _ Hi) in H.
  eapply coalesced_replace; [done| |].
  - unfold pieces. by destruct (decide (size b = asz)).
  - apply coalesced_app_r in H. pose proof (coalesced_tail _ _ H) as Hpost.
    unfold pieces. destruct (decide (size b = asz)); simpl.
    + destruct (drop (S i) bs); [done|]. split; [|done]. by intros [? _].
    + split; [by intros [? _]|]. destruct (drop (S i) bs) as [|c rest]; [done|].
      split; [|done]. destruct H as [Hn _]. intros [_ Hc]. by apply Hn.
Qed.

Lemma coalesced_allocated bs : Forall (λ b, is_free b = false) bs → coalesced bs.
Proof.
  induction 1 as [|b bs Hb _ IH]; [done|].
  destruct bs as [|c bs]; [done|]. split; [|done]. intros [? _]. congruence.
Qed.

Lemma coalesced_allocated_then bs x :
  Forall (λ b, is_free b = false) bs → coalesced (bs ++ [x]).
Proof.
  induction 1 as [|b bs Hb _ IH]; [done|].
  simpl. destruct (bs ++ [x]) as [|c rest]; [done|].
  split; [|done]. intros [? _]. congruence.
Qed.

Lemma coalesced_compacted A (tail : list MemoryBlock) :
  (length tail ≤ 1)%nat → coalesced (repack 0 A ++ tail).
Proof.
  intros Hlen. destruct tail as [|x [|??]]; [| |simpl in Hlen; lia].
  - rewrite app_nil_r. apply coalesced_allocated, repack_all_allocated.
  - apply coalesced_allocated_then, repack_all_allocated.
Qed.

Lemma chain_allocated_part a bs t :
  chain a bs t →
  Forall (λ b, 0 < size b) (filter (λ b, is_free b = false) bs) ∧
  a + sum_sizes (filter (λ b, is_free b = false) bs) ≤ t.
Proof.
  revert a. induction bs as [|b bs IH]; intros a; simpl.
  - intros ->. split; [constructor | lia].
  - intros (Hs & Hp & H). destruct (IH _ H) as [Hall Hsum].
    rewrite filter_cons. unfold block_end in Hsum.
    destruct (decide (is_free b = false)).
    + split; [by constructor|]. simpl. lia.
    + split; [done|]. apply chain_le in H. lia.
Qed.

Lemma chain_compacted bs t :
  chain 0 bs t →
  let A := filter (λ b, is_free b = false) bs in
  chain 0 (repack 0 A ++
           (if decide (sum_sizes A < t)
            then [Block (sum_sizes A) (t - sum_sizes A) true None] else [])) t.
Proof.
  intros Hch A. destruct (chain_allocated_part _ _ _ Hch) as [Hpos Hsum].
  fold A in Hpos, Hsum. apply chain_app. exists (0 + sum_sizes A). split.
  - by apply repack_chain.
  - destruct (decide (sum_sizes A < t)); simpl.
    + unfold block_end; simpl. repeat split; lia.
    + lia.
Qed.

(** Whatever the arguments, a call leaves no two free neighbours. *)
Lemma coalesced_run log2_ceil s c :
  well_formed s → coalesced (layout s) → coalesced (layout (run log2_ceil s c)).
Proof.
  intros Hwf Hco. destruct c as [name sz ub|name| |n]; cbn [run].
  - unfold allocate. destruct (process_map s !! Some name); [done|].
    pose proof (find_best_fit_spec s (actual_size log2_ceil sz ub)) as Hfit.
    destruct (_find_best_fit s _) as [i|]; [|done].
    destruct Hfit as (b & Hi & Hf & _). cbn [snd].
    rewrite (layout_place s name _ i b Hwf Hi) by apply Hf.
    apply coalesced_place; [done..|]. apply Hf.
  - destruct (process_map s !! Some name) as [r0|] eqn:E.
    + destruct (layout_deallocate s name Hwf) as (_ & _ & _ & -> & _).
      { by rewrite E. }
      apply coalesce_coalesced.
    + unfold deallocate. by rewrite E.
  - set (A := filter (λ b, is_free b = false) (layout s)).
    destruct (decide (A = [])) as [E|Hne].
    + apply allocated_refs_nil in E. unfold compact. by rewrite E.
    + destruct (layout_compact s Hwf Hne) as (_ & _ & -> & _).
      apply coalesced_compacted. by destruct (decide (_ < _)); simpl; lia.
  - unfold reset. by rewrite layout_initialize.
Qed.

Lemma reachable_coalesced log2_ceil s :
  reachable log2_ceil s → no_adjacent_free (layout s).
Proof.
  intros H. apply coalesced_no_adjacent_free.
  induction H as [total|s c H IH]; [done|].
  apply coalesced_run; [|done]. by apply reachable_well_formed_linked in H as [? _].
Qed.

(** A sensible call keeps the capacity positive and the blocks in a chain
    over it. *)
Lemma chain_run log2_ceil s c :
  well_formed s → sensible log2_ceil c →
  0 < total_memory s → chain 0 (layout s) (total_memory s) →
  0 < total_memory (run log2_ceil s c) ∧
  chain 0 (layout (run log2_ceil s c)) (total_memory (run log2_ceil s c)).
Proof.
  intros Hwf Hsens Hpos Hch.
  destruct c as [name sz ub|name| |n]; cbn [run sensible] in *.
  - unfold allocate. destruct (process_map s !! Some name); [done|].
    pose proof (find_best_fit_spec s (actual_size log2_ceil sz ub)) as Hfit.
    destruct (_find_best_fit s _) as [i|]; [|done].
    destruct Hfit as (b & Hi & Hf & _). cbn [snd].
    assert (total_memory (place s name (actual_size log2_ceil sz ub) i)
            = total_memory s) as ->.
    { unfold place. by destruct (_ <? _). }
    rewrite (layout_place s name _ i b Hwf Hi) by apply Hf.
    split; [done|]. by apply chain_place.
  - destruct (process_map s !! Some name) as [r0|] eqn:E.
    + destruct (layout_deallocate s name Hwf) as (_ & -> & _ & -> & _).
      { by rewrite E. }
      split; [done|]. by apply coalesce_chain, free_first_of_chain.
    + unfold deallocate. by rewrite E.
  - set (A := filter (λ b, is_free b = false) (layout s)).
    destruct (decide (A = [])) as [E|Hne].
    + apply allocated_refs_nil in E. unfold compact. by rewrite E.
    + destruct (layout_compact s Hwf Hne) as (_ & -> & -> & _).
      split; [done|]. by apply chain_compacted.
  - unfold reset. rewrite layout_initialize.
    assert (0 < total_memory
                  (if truthy n
                   then {| total_memory := default 0 n; objects := objects s;
                           blocks := blocks s; process_map := process_map s |}
                   else s)) as Hpos'.
    { destruct n as [n|]; simpl; [|done].
      destruct (Z.eqb_spec n 0); simpl; [done | lia]. }
    split; [done|]. simpl. unfold block_end; simpl. repeat split; done || lia.
Qed.

(** With a logarithm that is never negative, as that of a number from 1 on
    is, every allocation that rounds and every allocation of a positive
    size is sensible. *)
Lemma sensible_allocate log2_ceil name sz use_buddy :
  (∀ n, 0 < n → 0 ≤ log2_ceil n) → use_buddy = true ∨ 0 < sz →
  sensible log2_ceil (Allocate name sz use_buddy).
Proof.
  intros Hlog Hcase. simpl. unfold actual_size, _round_to_power_of_2.
  destruct use_buddy.
  - destruct (Z.leb_spec sz 0); [done|]. apply Z.pow_pos_nonneg; [done|].
    by apply Hlog.
  - by destruct Hcase.
Qed.

(** The invariant carried along sensible runs. *)
Lemma sensible_invariant log2_ceil s :
  reachable_sensibly log2_ceil s →
  well_formed s ∧ 0 < total_memory s ∧
  chain 0 (layout s) (total_memory s) ∧ coalesced (layout s).
Proof.
  induction 1 as [total Hpos|s c _ (Hwf & Hpos & Hch & Hco) Hsens].
  - split; [apply well_formed_init|]. split; [done|].
    rewrite layout_init. simpl. unfold block_end; simpl. repeat split; done || lia.
  - split; [by apply well_formed_run|].
    destruct (chain_run log2_ceil s c) as [Hpos' Hch']; [done..|].
    split; [done|]. split; [done|]. by apply coalesced_run.
Qed.

Lemma block_invariant_of_chain s :
  0 < total_memory s → chain 0 (layout s) (total_memory s) →
  coalesced (layout s) → block_invariant s.
Proof.
  intros Hpos Hch Hco. split.
  - apply chain_partitions; [|done]. intros E. rewrite E in Hch. simpl in Hch. lia.
  - by apply coalesced_no_adjacent_free.
Qed.

(** C1 (refuted as stated).  The constructor, [reset] and [allocate] take any
    integer: a manager of capacity [0], a request of [0] units without
    rounding, and [reset(-5)] each produce a block whose size is not
    positive, in a state reached by ordinary calls. *)
Lemma block_invariant_violated :
  (reachable log2_ceil_exact (__init__ 0) ∧
   ¬ block_invariant (__init__ 0)) ∧
  (reachable log2_ceil_exact
     (run log2_ceil_exact (__init__ 1024) (Allocate "A" 0 false)) ∧
   ¬ block_invariant
       (run log2_ceil_exact (__init__ 1024) (Allocate "A" 0 false))) ∧
  (reachable log2_ceil_exact
     (run log2_ceil_exact (__init__ 1024) (Reset (Some (-5)))) ∧
   ¬ block_invariant
       (run log2_ceil_exact (__init__ 1024) (Reset (Some (-5))))).
Proof.
  split; [|split]; (split; [repeat constructor|]); intros [[_ _ _ _ Hpos] _].
  - assert (0 < size (Block 0 0 true None)) as H; [|by vm_compute in H].
    apply Hpos. vm_compute. left.
  - assert (0 < size (Block 0 0 false (Some "A"))) as H; [|by vm_compute in H].
    apply Hpos. vm_compute. left.
  - assert (0 < size (Block 0 (-5) true None)) as H; [|by vm_compute in H].
    apply Hpos. vm_compute. left.
Qed.

(** C1 (amended).  From a positive capacity, through calls that reserve a
    positive size and that reset to no negative capacity, the blocks
    partition [0, total_memory) in order, each of positive size, and no two
    neighbours are both free. *)
Theorem block_invariant_sensible (log2_ceil : Z → Z) (s : Manager) :
  reachable_sensibly log2_ceil s → block_invariant s.
Proof.
  intros H. apply sensible_invariant in H as (_ & Hpos & Hch & Hco).
  by apply block_invariant_of_chain.
Qed.

Lemma block_invariant_sensible_witness :
  block_invariant
    (run log2_ceil_exact
       (run log2_ceil_exact
          (run log2_ceil_exact (__init__ 1024) (Allocate "A" 100 true))
          (Allocate "B" 256 false))
       (Deallocate "A")).
Proof.
  apply (block_invariant_sensible log2_ceil_exact).
  apply sensibly_run; [apply sensibly_run; [apply sensibly_run;
    [apply sensibly_init|] |] |]; by vm_compute.
Defined.

(** ** Compaction keeps the order of the allocated blocks *)

(** Among the allocated blocks of a chain, a lower position is a lower
    address. *)
Lemma allocated_order a bs t i j bi bj :
  chain a bs t →
  filter (λ b, is_free b = false) bs !! i = Some bi →
  filter (λ b, is_free b = false) bs !! j = Some bj →
  start bi < start bj ↔ (i < j)%nat.
Proof.
  intros Hch Hi Hj.
  assert (∀ i j bi bj,
            filter (λ b, is_free b = false) bs !! i = Some bi →
            filter (λ b, is_free b = false) bs !! j = Some bj →
            (i < j)%nat → start bi < start bj) as Hmono.
  { clear i j bi bj Hi Hj. intros i j bi bj Hi Hj Hlt.
    destruct (filter_lookup_mono _ _ _ _ _ _ Hi Hj Hlt) as (k & k' & Hk & Hk' & Hkk).
    by eapply chain_ascending. }
  split; [|by apply Hmono].
  intros Hlt. destruct (Nat.lt_trichotomy i j) as [?|[-> |Hgt]]; [done| |].
  - rewrite Hi in Hj. injection Hj as ->. lia.
  - pose proof (Hmono _ _ _ _ Hj Hi Hgt). lia.
Qed.

(** With positive sizes, the sum of a longer prefix is larger. *)
Lemma prefix_sum_order bs i j :
  Forall (λ b, 0 < size b) bs → (i < length bs)%nat → (j < length bs)%nat →
  sum_sizes (take i bs) < sum_sizes (take j bs) ↔ (i < j)%nat.
Proof.
  intros Hpos. revert i j. induction Hpos as [|b bs Hb Hbs IH]; intros i j Hi Hj.
  { simpl in Hi. lia. }
  assert (∀ k, 0 ≤ sum_sizes (take k bs)) as Hnn.
  { intros k. assert (Forall (λ b, 0 < size b) (take k bs)) as H by (by apply Forall_take).
    clear -H. induction H as [|x l Hx _ IHl]; simpl; lia. }
  destruct i as [|i], j as [|j]; simpl in *.
  - lia.
  - specialize (Hnn j). split; lia.
  - specialize (Hnn i). split; lia.
  - destruct (decide (i < length bs)%nat); [|lia].
    destruct (decide (j < length bs)%nat); [|lia].
    rewrite <- Nat.succ_lt_mono, <- (IH i j) by done. lia.
Qed.

(** C3 (as amended).  [compact] fails exactly when nothing is allocated.
    Otherwise the allocated blocks are placed one after the other from
    address 0, in the order they had in the block sequence (which is their
    address order when the blocks are laid out in address order), each with
    its size and owner; one free block follows for what remains of the
    capacity, none when nothing remains; every owner is registered for its
    new block; the number of allocated blocks is returned; at most one free
    block is left. *)
Theorem compact_spec (s : Manager) :
  well_formed s →
  let A := filter (λ b, is_free b = false) (layout s) in
  let res := compact s in
  (res.1.1.1 = false ↔ A = []) ∧
  (A = [] → res = ((false, "No allocated blocks to compact", 0), s)) ∧
  (A ≠ [] →
     res.1 = (true, "Memory compacted successfully", Z.of_nat (length A)) ∧
     total_memory res.2 = total_memory s ∧
     layout res.2 =
       repack 0 A ++
       (if decide (sum_sizes A < total_memory s)
        then [Block (sum_sizes A) (total_memory s - sum_sizes A) true None]
        else []) ∧
     (∀ i b, A !! i = Some b →
        layout res.2 !! i =
          Some (Block (sum_sizes (take i A)) (size b) false (process_name b))) ∧
     (count_free (layout res.2) ≤ 1)%nat ∧
     (∀ t, chain 0 (layout s) t →
        ∀ i j bi bj ni nj,
          A !! i = Some bi → A !! j = Some bj →
          layout res.2 !! i = Some ni → layout res.2 !! j = Some nj →
          (start bi < start bj ↔ start ni < start nj)) ∧
     (∀ i b, A !! i = Some b →
        (∀ j b', (i < j)%nat → A !! j = Some b' → process_name b' ≠ process_name b) →
        ∃ r, blocks res.2 !! i = Some r ∧
             process_map res.2 !! process_name b = Some r) ∧
     (∀ k, (∀ b, b ∈ A → process_name b ≠ k) →
        process_map res.2 !! k = process_map s !! k)).
Proof.
  intros Hwf A res.
  assert (A = [] → res = ((false, "No allocated blocks to compact", 0), s)) as Hfail.
  { intros HA. apply allocated_refs_nil in HA. subst res. unfold compact.
    by rewrite HA. }
  assert (A ≠ [] → res.1.1.1 = true) as Hok.
  { intros HA. destruct (layout_compact s Hwf HA) as (E & _). subst res.
    by rewrite E. }
  split; [|split; [done|]].
  { split.
    - intros Hf. destruct A as [|b A'] eqn:EA; [done|].
      rewrite Hok in Hf; done.
    - intros HA. by rewrite (Hfail HA). }
  intros HA. destruct (layout_compact s Hwf HA) as (E1 & E2 & E3 & E4 & E5).
  fold A in E1, E3, E4, E5. fold res in E1, E2, E3, E4, E5.
  assert (∀ i b, A !! i = Some b →
            layout res.2 !! i =
              Some (Block (sum_sizes (take i A)) (size b) false (process_name b)))
    as Hnew.
  { intros i b Hi. rewrite E3. apply lookup_app_l_Some.
    apply repack_lookup. exists b. by rewrite Z.add_0_l. }
  split; [done|]. split; [done|]. split; [done|]. split; [done|].
  split; [|split; [|split]].
  - rewrite E3, count_free_app.
    rewrite (count_free_allocated _ (repack_all_allocated 0 A)).
    by destruct (decide (sum_sizes A < total_memory s)); simpl; lia.
  - intros t Hch i j bi bj ni nj Hi Hj Hni Hnj.
    rewrite (Hnew _ _ Hi) in Hni. rewrite (Hnew _ _ Hj) in Hnj.
    injection Hni as <-. injection Hnj as <-. cbn [start].
    destruct (chain_allocated_part _ _ _ Hch) as [Hpos _]. fold A in Hpos.
    rewrite (allocated_order _ _ _ i j bi bj Hch Hi Hj).
    symmetry. by apply prefix_sum_order; [|eapply lookup_lt_Some..].
  - intros i b Hi Hlast. exists (length (objects s) + i)%nat. split.
    + apply E5. by eapply lookup_lt_Some.
    + rewrite E4. apply register_all_last.
      * by rewrite list_lookup_fmap, Hi.
      * intros j Hj Hk. rewrite list_lookup_fmap in Hk.
        destruct (A !! j) as [b'|] eqn:Ej; [|done].
        simpl in Hk. injection Hk as Hk. by apply (Hlast j b').
  - intros k Hk. rewrite E4. apply register_all_notin.
    intros Hin. apply list_elem_of_fmap in Hin as (b & -> & Hb).
    by apply (Hk b).
Qed.

(** Three allocations, the first given back: the two that remain move down
    over the hole, in their order, and one free block follows. *)
Lemma compact_spec_witness :
  let s := foldl (run log2_ceil_exact) (__init__ 1024)
             [Allocate "A" 100 true; Allocate "B" 200 true;
              Allocate "C" 50 true; Deallocate "A"] in
  layout s = [Block 0 128 true None; Block 128 256 false (Some "B");
              Block 384 64 false (Some "C"); Block 448 576 true None] ∧
  (compact s).1 = (true, "Memory compacted successfully", 2) ∧
  layout (compact s).2
    = [Block 0 256 false (Some "B"); Block 256 64 false (Some "C");
       Block 320 704 true None] ∧
  (count_free (layout (compact s).2) ≤ 1)%nat ∧
  (start (Block 128 256 false (Some "B")) < start (Block 384 64 false (Some "C")) ↔
   start (Block 0 256 false (Some "B")) < start (Block 256 64 false (Some "C"))).
Proof.
  cbv zeta.
  set (s := foldl (run log2_ceil_exact) (__init__ 1024) _).
  assert (well_formed s) as Hwf.
  { apply (reachable_well_formed_linked log2_ceil_exact).
    apply reachable_foldl, reachable_init. }
  destruct (compact_spec s Hwf) as (_ & _ & H).
  destruct H as (E & _ & Hlay & _ & Hfree & Hord & _); [by vm_compute|].
  split; [reflexivity|]. split; [rewrite E; reflexivity|].
  split; [rewrite Hlay; reflexivity|]. split; [exact Hfree|].
  apply (Hord 1024 ltac:(vm_compute; repeat split; lia) 0%nat 1%nat);
    reflexivity.
Defined.

(** C3 (the claim as it stands fails).  [compact] keeps the order of the
    block sequence, which need not be the order of the addresses: after a
    block of negative size the sequence is no longer in address order.  In
    the state below, reached by calls of the program, the block of Y starts
    below the block of X; after [compact] it starts above. *)
Lemma compact_reverses_address_order :
  let s := foldl (run log2_ceil_exact) (__init__ 1024)
             [Allocate "X" 10 false; Allocate "N" (-15) false;
              Allocate "Y" 20 false; Deallocate "N"] in
  reachable log2_ceil_exact s ∧
  layout s = [Block 0 10 false (Some "X"); Block 10 (-15) true None;
              Block (-5) 20 false (Some "Y"); Block 15 1009 true None] ∧
  (compact s).1 = (true, "Memory compacted successfully", 2) ∧
  layout (compact s).2
    = [Block 0 10 false (Some "X"); Block 10 20 false (Some "Y");
       Block 30 994 true None] ∧
  start (Block (-5) 20 false (Some "Y")) < start (Block 0 10 false (Some "X")) ∧
  ¬ start (Block 10 20 false (Some "Y")) < start (Block 0 10 false (Some "X")).
Proof.
  cbv zeta. split; [apply reachable_foldl, reachable_init|].
  split; [reflexivity|]. split; [reflexivity|]. split; [reflexivity|].
  simpl. lia.
Qed.



(** ** Allocate, then deallocate *)

Lemma free_first_of_skip name pre l :
  Forall (λ b, ¬ owned_by name b) pre →
  free_first_of name (pre ++ l) = pre ++ free_first_of name l.
Proof.
  induction 1 as [|b pre Hb _ IH]; [done|]. simpl.
  destruct (negb (is_free b) && bool_decide (process_name b = Some name)) eqn:E.
  - by apply owned_by_dec in E.
  - by rewrite IH.
Qed.

Lemma free_first_of_hit name b l :
  owned_by name b →
  free_first_of name (b :: l) = Block (start b) (size b) true None :: l.
Proof. intros H. apply owned_by_dec in H. simpl. by rewrite H. Qed.

(** A name that is not registered owns no block. *)
Lemma unregistered_owns_nothing s name :
  linked s → process_map s !! Some name = None →
  Forall (λ b, ¬ owned_by name b) (layout s).
Proof.
  intros (_ & L2 & _) Hnone. apply Forall_forall. intros b Hin [Hnf Hname].
  apply list_elem_of_lookup in Hin as [i Hi].
  destruct (layout_lookup_ref _ _ _ Hi) as (r & Hr & ->).
  destruct (L2 r) as [Hpm _]; [by eapply list_elem_of_lookup_2 | done |].
  rewrite Hname in Hpm. congruence.
Qed.

(** Freeing what [place] put in and coalescing gives the old layout. *)
Lemma release_pieces name asz bs i b :
  coalesced bs → bs !! i = Some b → fits asz b → process_name b = None →
  Forall (λ b, ¬ owned_by name b) bs →
  coalesce (free_first_of name (take i bs ++ pieces name asz b ++ drop (S i) bs)) = bs.
Proof.
  intros Hco Hi [Hfree Hle] Hnone Hown.
  pose proof (take_drop_middle _ _ _ Hi) as Esplit.
  rewrite free_first_of_skip by (by apply Forall_take).
  unfold pieces. destruct (decide (size b = asz)) as [E|Hne];
    cbn [app]; rewrite free_first_of_hit by done; cbn [start size].
  - assert (Block (start b) (size b) true None = b) as Eb.
    { destruct b; simpl in *. by subst. }
    rewrite <- E, Eb, Esplit. by apply coalesce_fixed.
  - set (b1 := Block (start b) asz true None).
    set (b2 := Block (start b + asz) (size b - asz) true None).
    assert (grow b1 (size b2) = b) as Eb.
    { destruct b; unfold grow; simpl in *. subst. f_equal. lia. }
    rewrite coalesce_rejoin; rewrite ?Eb, ?Esplit; done.
Qed.

(** C6.  In a reachable state that satisfies the block-list invariant, an
    allocation followed at once by the deallocation of the same name gives
    back the block layout it started from, hence the same free regions, and
    the registry it started from. *)
Theorem allocate_deallocate_roundtrip (log2_ceil : Z → Z) (s : Manager)
    (name : string) (sz : Z) (use_buddy : bool) :
  reachable log2_ceil s → block_invariant s →
  (allocate log2_ceil s name sz use_buddy).1.1.1 = true →
  let s1 := (allocate log2_ceil s name sz use_buddy).2 in
  let s2 := (deallocate s1 name).2 in
  (deallocate s1 name).1.1 = true ∧
  layout s2 = layout s ∧
  (λ b, (start b, block_end b)) <$> filter (λ b, is_free b = true) (layout s2) =
  (λ b, (start b, block_end b)) <$> filter (λ b, is_free b = true) (layout s) ∧
  process_map s2 = process_map s ∧
  total_memory s2 = total_memory s.
Proof.
  intros Hreach [_ Hnaf] Hok.
  apply coalesced_no_adjacent_free in Hnaf.
  apply reachable_well_formed_linked in Hreach as [Hwf Hl].
  unfold allocate in *.
  destruct (process_map s !! Some name) eqn:Hnone; [done|].
  set (asz := actual_size log2_ceil sz use_buddy) in *.
  pose proof (find_best_fit_spec s asz) as Hfit.
  destruct (_find_best_fit s asz) as [i|]; [|done].
  destruct Hfit as (b & Hi & Hf & _). cbn [snd]. cbv zeta.
  destruct (layout_lookup_ref _ _ _ Hi) as (r0 & Hr0 & Eb).
  set (s1 := place s name asz i).
  assert (well_formed s1) as Hwf1 by (by eapply well_formed_place).
  destruct (registry_place s name asz i r0 Hr0) as (r & _ & Epm). fold s1 in Epm.
  destruct (layout_deallocate s1 name Hwf1) as (E1 & E2 & E3 & E4 & _).
  { rewrite Epm, lookup_insert_eq. by eexists. }
  assert (layout (deallocate s1 name).2 = layout s) as El.
  { rewrite E4. unfold s1. rewrite (layout_place s name asz i b Hwf Hi) by apply Hf.
    apply release_pieces; [done..| |].
    - destruct Hl as (_ & _ & L3). rewrite Eb. apply L3; [|rewrite <- Eb; apply Hf].
      by eapply list_elem_of_lookup_2.
    - by apply unregistered_owns_nothing. }
  split; [by rewrite E1|]. split; [done|]. split; [by rewrite El|]. split.
  - rewrite E3, Epm. by apply delete_insert_id.
  - rewrite E2. unfold s1, place. by destruct (_ <? _).
Qed.

Lemma allocate_deallocate_roundtrip_witness :
  layout (deallocate (allocate log2_ceil_exact (__init__ 1024) "A" 100 true).2 "A").2
    = layout (__init__ 1024).
Proof.
  apply (allocate_deallocate_roundtrip log2_ceil_exact (__init__ 1024) "A" 100 true).
  - apply reachable_init.
  - apply block_invariant_of_chain; [done | | done].
    rewrite layout_init. simpl. unfold block_end; simpl. lia.
  - reflexivity.
Defined.

(** * Further properties of the engine *)

(** ** Memory accounting *)

Lemma sum_sizes_app l1 l2 : sum_sizes (l1 ++ l2) = sum_sizes l1 + sum_sizes l2.
Proof. induction l1 as [|b l1 IH]; simpl; [done|]. rewrite IH. lia. Qed.

Lemma used_of_cons b bs :
  used_of (b :: bs) = (if is_free b then 0 else size b) + used_of bs.
Proof.
  unfold used_of. rewrite filter_cons. destruct (is_free b) eqn:E.
  - by rewrite decide_False.
  - by rewrite decide_True.
Qed.

Lemma free_of_cons b bs :
  free_of (b :: bs) = (if is_free b then size b else 0) + free_of bs.
Proof.
  unfold free_of. rewrite filter_cons. destruct (is_free b) eqn:E.
  - by rewrite decide_True.
  - by rewrite decide_False.
Qed.

Lemma used_of_app l1 l2 : used_of (l1 ++ l2) = used_of l1 + used_of l2.
Proof. unfold used_of. by rewrite filter_app, sum_sizes_app. Qed.

Lemma free_of_app l1 l2 : free_of (l1 ++ l2) = free_of l1 + free_of l2.
Proof. unfold free_of. by rewrite filter_app, sum_sizes_app. Qed.

Lemma used_free_sum bs : used_of bs + free_of bs = sum_sizes bs.
Proof.
  induction bs as [|b bs IH]; [done|].
  rewrite used_of_cons, free_of_cons. simpl. destruct (is_free b); lia.
Qed.

Lemma get_used_memory_layout s : get_used_memory s = used_of (layout s).
Proof. reflexivity. Qed.

Lemma get_free_memory_layout s : get_free_memory s = free_of (layout s).
Proof. reflexivity. Qed.

(** Coalescing leaves the allocated blocks as they are. *)
Lemma coalesce_allocated_part bs :
  filter (λ b, is_free b = false) (coalesce bs) = filter (λ b, is_free b = false) bs.
Proof.
  induction bs as [|b bs IH]; [done|]. simpl.
  destruct (coalesce bs) as [|c out] eqn:E.
  - rewrite !filter_cons, <- IH. done.
  - destruct (is_free b) eqn:Eb, (is_free c) eqn:Ec; simpl.
    + rewrite !filter_cons, <- IH. rewrite !filter_cons. simpl.
      rewrite Eb, Ec. by rewrite !decide_False.
    + rewrite (filter_cons _ b bs), <- IH. by rewrite (filter_cons _ b (c :: out)).
    + rewrite (filter_cons _ b bs), <- IH. by rewrite (filter_cons _ b (c :: out)).
    + rewrite (filter_cons _ b bs), <- IH. by rewrite (filter_cons _ b (c :: out)).
Qed.

Lemma coalesce_used bs : used_of (coalesce bs) = used_of bs.
Proof. unfold used_of. by rewrite coalesce_allocated_part. Qed.

Lemma coalesce_free bs : free_of (coalesce bs) = free_of bs.
Proof.
  pose proof (used_free_sum bs). pose proof (used_free_sum (coalesce bs)).
  pose proof (coalesce_used bs). pose proof (coalesce_sum bs). lia.
Qed.

Lemma pieces_used name asz b : used_of (pieces name asz b) = asz.
Proof.
  unfold pieces. destruct (decide (size b = asz));
    rewrite ?used_of_cons; simpl; unfold used_of; simpl; lia.
Qed.

Lemma pieces_free name asz b : free_of (pieces name asz b) = size b - asz.
Proof.
  unfold pieces. destruct (decide (size b = asz));
    rewrite ?free_of_cons; simpl; unfold free_of; simpl; lia.
Qed.

(** What a successful [allocate] is, without any assumption on the state. *)
Lemma allocate_success_inv log2_ceil s name sz ub :
  (allocate log2_ceil s name sz ub).1.1.1 = true →
  process_map s !! Some name = None ∧
  ∃ i b, best_candidate (actual_size log2_ceil sz ub) (layout s) i b ∧
         allocate log2_ceil s name sz ub =
           ((true,
             "Process '" +:+ name +:+ "' allocated " +:+
               pretty (actual_size log2_ceil sz ub) +:+ "KB",
             Some (start b)),
            place s name (actual_size log2_ceil sz ub) i).
Proof.
  unfold allocate. destruct (process_map s !! Some name); [done|].
  pose proof (find_best_fit_spec s (actual_size log2_ceil sz ub)) as Hfit.
  destruct (_find_best_fit s _) as [i|]; [|done]. intros _. split; [done|].
  destruct Hfit as (b & Hbest). exists i, b. split; [done|].
  destruct Hbest as (Hi & _). destruct (layout_lookup_ref _ _ _ Hi) as (r & Hr & ->).
  by rewrite (list_lookup_total_correct _ _ _ Hr).
Qed.


(** X1.  A successful [allocate] moves exactly the reserved size from free
    memory to used memory. *)
Theorem allocate_accounting (log2_ceil : Z → Z) (s : Manager) (name : string)
    (sz : Z) (use_buddy : bool) :
  well_formed s →
  (allocate log2_ceil s name sz use_buddy).1.1.1 = true →
  let s' := (allocate log2_ceil s name sz use_buddy).2 in
  get_used_memory s' = get_used_memory s + actual_size log2_ceil sz use_buddy ∧
  get_free_memory s' = get_free_memory s - actual_size log2_ceil sz use_buddy.
Proof.
  intros Hwf Hok.
  destruct (allocate_success_inv _ _ _ _ _ Hok) as (_ & i & b & Hbest & ->).
  cbn [snd]. destruct Hbest as (Hi & [Hfree Hle] & _).
  rewrite !get_used_memory_layout, !get_free_memory_layout.
  rewrite (layout_place s name _ i b Hwf Hi Hle).
  rewrite <- (take_drop_middle _ _ _ Hi) at 3 6.
  rewrite !used_of_app, !free_of_app, pieces_used, pieces_free.
  rewrite used_of_cons, free_of_cons, Hfree. lia.
Qed.

Lemma allocate_accounting_witness :
  get_used_memory (allocate log2_ceil_exact (__init__ 1024) "X" 100 true).2
    = get_used_memory (__init__ 1024) + 128.
Proof.
  apply (allocate_accounting log2_ceil_exact (__init__ 1024) "X" 100 true).
  - apply well_formed_init.
  - reflexivity.
Defined.

(** The first block of [name], when there is one, is what gets freed. *)
Lemma free_first_of_split name bs :
  (∃ b, b ∈ bs ∧ owned_by name b) →
  ∃ pre b post,
    bs = pre ++ b :: post ∧ owned_by name b ∧
    free_first_of name bs = pre ++ Block (start b) (size b) true None :: post.
Proof.
  induction bs as [|b0 bs IH]; intros (b & Hin & Hown).
  { by apply elem_of_nil in Hin. }
  simpl. destruct (negb (is_free b0) && bool_decide (process_name b0 = Some name)) eqn:E.
  - apply owned_by_dec in E. by exists [], b0, bs.
  - apply elem_of_cons in Hin as [-> |Hin].
    { apply owned_by_dec in Hown. congruence. }
    destruct IH as (pre & b1 & post & -> & Hown1 & ->); [by exists b|].
    by exists (b0 :: pre), b1, post.
Qed.

Lemma process_map_merge s : process_map (_merge_free_blocks s) = process_map s.
Proof.
  unfold _merge_free_blocks. destruct (_ <=? _)%nat; [done|].
  by destruct (merge_loop _ _ _ _).
Qed.

Lemma process_map_deallocate s name :
  process_map (deallocate s name).2 = delete (Some name) (process_map s).
Proof.
  unfold deallocate. destruct (process_map s !! Some name) eqn:E; simpl.
  - by rewrite process_map_merge.
  - symmetry. by apply delete_id.
Qed.

(** X2.  In a reachable state, a successful [deallocate] moves exactly the
    size of the block of that name from used memory to free memory, and the
    name is no longer registered. *)
Theorem deallocate_accounting (log2_ceil : Z → Z) (s : Manager) (name : string) :
  reachable log2_ceil s → is_Some (process_map s !! Some name) →
  let s' := (deallocate s name).2 in
  ∃ b, b ∈ layout s ∧ owned_by name b ∧
       (deallocate s name).1.1 = true ∧
       get_used_memory s' = get_used_memory s - size b ∧
       get_free_memory s' = get_free_memory s + size b ∧
       process_map s' !! Some name = None.
Proof.
  intros Hreach Hreg. cbv zeta.
  apply reachable_well_formed_linked in Hreach as [Hwf Hl].
  destruct (layout_deallocate s name Hwf Hreg) as (E1 & _ & _ & El & _).
  assert (∃ b, b ∈ layout s ∧ owned_by name b) as Hex.
  { destruct Hreg as [r Hr]. destruct Hl as (L1 & _ & _).
    destruct (L1 _ _ Hr) as (Hin & Hnf & Hname).
    exists (objects s !!! r). split; [|done].
    apply list_elem_of_lookup in Hin as [i Hi].
    eapply list_elem_of_lookup_2. by apply layout_ref. }
  destruct (free_first_of_split name _ Hex) as (pre & b & post & Esplit & Hown & Efree).
  exists b. split; [rewrite Esplit; apply elem_of_app; right; left|]. split; [done|].
  split; [by rewrite E1|].
  rewrite !get_used_memory_layout, !get_free_memory_layout, El.
  rewrite coalesce_used, coalesce_free, Efree, Esplit.
  rewrite !used_of_app, !free_of_app, !used_of_cons, !free_of_cons.
  destruct Hown as [Hnf _]. rewrite Hnf. simpl.
  split; [lia|]. split; [lia|].
  rewrite process_map_deallocate. apply lookup_delete_eq.
Qed.

Lemma deallocate_accounting_witness :
  ∃ b, b ∈ layout (allocate log2_ceil_exact (__init__ 1024) "X" 100 true).2 ∧
       get_used_memory
         (deallocate (allocate log2_ceil_exact (__init__ 1024) "X" 100 true).2 "X").2
       = get_used_memory (allocate log2_ceil_exact (__init__ 1024) "X" 100 true).2
         - size b.
Proof.
  destruct (deallocate_accounting log2_ceil_exact
              (allocate log2_ceil_exact (__init__ 1024) "X" 100 true).2 "X")
    as (b & Hin & _ & _ & Hused & _).
  - apply (reachable_run log2_ceil_exact _ (Allocate "X" 100 true)), reachable_init.
  - by eexists.
  - by exists b.
Defined.

(** X3.  A name is gone after [deallocate]: whatever the state and whether
    or not the first call succeeded, a second [deallocate] of the same name
    fails with "not found" and changes nothing. *)
Theorem deallocate_twice (s : Manager) (name : string) :
  process_map (deallocate s name).2 !! Some name = None ∧
  deallocate (deallocate s name).2 name =
    ((false, "Process '" +:+ name +:+ "' not found"), (deallocate s name).2).
Proof.
  assert (process_map (deallocate s name).2 !! Some name = None) as Hnone.
  { rewrite process_map_deallocate. apply lookup_delete_eq. }
  split; [done|]. unfold deallocate at 1. by rewrite Hnone.
Qed.

(** X4.  A name that was just allocated is registered: a second [allocate]
    of it fails with "already allocated" and changes nothing, whatever size
    is asked, and a [deallocate] of it succeeds. *)
Theorem allocate_twice (log2_ceil : Z → Z) (s : Manager) (name : string)
    (sz sz' : Z) (use_buddy use_buddy' : bool) :
  (allocate log2_ceil s name sz use_buddy).1.1.1 = true →
  let s' := (allocate log2_ceil s name sz use_buddy).2 in
  is_Some (process_map s' !! Some name) ∧
  allocate log2_ceil s' name sz' use_buddy' =
    ((false, "Process '" +:+ name +:+ "' already allocated", None), s') ∧
  (deallocate s' name).1.1 = true.
Proof.
  intros Hok. destruct (allocate_success_inv _ _ _ _ _ Hok) as (_ & i & b & _ & ->).
  cbn [snd]. cbv zeta.
  assert (is_Some (process_map (place s name (actual_size log2_ceil sz use_buddy) i)
                     !! Some name)) as [r Hr].
  { unfold place. cbn [process_map]. rewrite lookup_insert_eq. by eexists. }
  split; [by eexists|]. split.
  - unfold allocate. by rewrite Hr.
  - unfold deallocate. by rewrite Hr.
Qed.

Lemma allocate_twice_witness :
  (deallocate (allocate log2_ceil_exact (__init__ 1024) "X" 100 true).2 "X").1.1 = true.
Proof.
  apply (allocate_twice log2_ceil_exact (__init__ 1024) "X" 100 7 true false).
  reflexivity.
Defined.


Lemma memory_bounds log2_ceil s :
  reachable_sensibly log2_ceil s →
  get_used_memory s + get_free_memory s = total_memory s ∧
  0 ≤ get_used_memory s ∧ 0 ≤ get_free_memory s.
Proof.
  intros H. apply sensible_invariant in H as (_ & _ & Hch & _).
  rewrite get_used_memory_layout, get_free_memory_layout.
  pose proof (used_free_sum (layout s)) as Hsum.
  pose proof (chain_sum _ _ _ Hch) as Htot.
  assert (∀ bs a t, chain a bs t → 0 ≤ used_of bs ∧ 0 ≤ free_of bs) as Hnn.
  { clear. induction bs as [|b bs IH]; intros a t; simpl.
    - intros _. by vm_compute.
    - intros (_ & Hp & H). destruct (IH _ _ H).
      rewrite used_of_cons, free_of_cons. destruct (is_free b); lia. }
  destruct (Hnn _ _ _ Hch). lia.
Qed.

(** X5.  From a positive capacity and through sensible calls, memory is
    conserved: used memory plus free memory is the capacity, and neither is
    negative. *)
Theorem memory_conserved (log2_ceil : Z → Z) (s : Manager) :
  reachable_sensibly log2_ceil s →
  get_used_memory s + get_free_memory s = total_memory s ∧
  0 ≤ get_used_memory s ∧ 0 ≤ get_free_memory s.
Proof. apply memory_bounds. Qed.

Lemma memory_conserved_witness :
  get_used_memory (run log2_ceil_exact (__init__ 1024) (Allocate "A" 100 true)) +
  get_free_memory (run log2_ceil_exact (__init__ 1024) (Allocate "A" 100 true))
  = total_memory (run log2_ceil_exact (__init__ 1024) (Allocate "A" 100 true)).
Proof.
  apply (memory_conserved log2_ceil_exact).
  apply sensibly_run; [apply sensibly_init|]; by vm_compute.
Defined.

(** ** Free blocks between allocated blocks *)

Lemma count_free_allocated_length bs :
  (count_free bs + count_allocated bs)%nat = length bs.
Proof.
  induction bs as [|b bs IH]; simpl; [done|]. destruct (is_free b); lia.
Qed.

Lemma count_allocated_filter bs :
  length (filter (λ b, is_free b = false) bs) = count_allocated bs.
Proof.
  induction bs as [|b bs IH]; [done|].
  rewrite filter_cons. simpl. destruct (is_free b) eqn:E.
  - rewrite decide_False by done. by rewrite IH.
  - rewrite decide_True by done. simpl. by rewrite IH.
Qed.

(** In a coalesced list the free blocks are separated by allocated ones. *)
Lemma coalesced_count bs :
  coalesced bs →
  (count_free bs ≤ count_allocated bs + 1)%nat ∧
  (is_free <$> head bs ≠ Some true → (count_free bs ≤ count_allocated bs)%nat).
Proof.
  induction bs as [|b bs IH]; intros H.
  { simpl. split; [lia | done]. }
  pose proof (coalesced_tail _ _ H) as Ht. destruct (IH Ht) as [IH1 IH2].
  cbn [count_free count_allocated]. destruct (is_free b) eqn:Eb.
  - split; [|simpl; by rewrite Eb].
    assert (is_free <$> head bs ≠ Some true) as Hh.
    { destruct bs as [|c bs]; [done|]. destruct H as [Hn _].
      simpl. intros [= Hc]. by apply Hn. }
    specialize (IH2 Hh). lia.
  - split; [lia|]. intros _. lia.
Qed.

(** X6.  Whatever the arguments of the calls made, a reachable state never
    has two free blocks side by side, so it has at most one free block more
    than it has allocated blocks, and its fragmentation ratio lies in
    [0, 1/2). *)
Theorem fragmentation_bounded (log2_ceil : Z → Z) (s : Manager) :
  reachable log2_ceil s →
  no_adjacent_free (layout s) ∧
  (count_free (layout s) ≤ count_allocated (layout s) + 1)%nat ∧
  Qle 0 (get_fragmentation_ratio s).1 ∧
  Qlt (get_fragmentation_ratio s).1 (1 # 2).
Proof.
  intros H. pose proof (reachable_coalesced _ _ H) as Hnaf.
  split; [done|]. apply coalesced_no_adjacent_free in Hnaf.
  destruct (coalesced_count _ Hnaf) as [Hcount _]. split; [done|].
  unfold get_fragmentation_ratio. rewrite count_free_filter.
  pose proof (count_free_allocated_length (layout s)) as Hlen.
  rewrite layout_length in Hlen.
  destruct (Nat.leb_spec (count_free (layout s)) 1) as [Hle|Hgt]; simpl.
  - split; [apply Qle_refl | done].
  - assert (Z.pos (Pos.of_nat (length (blocks s))) = Z.of_nat (length (blocks s))) as Epos.
    { destruct (length (blocks s)) as [|n] eqn:E; [lia|].
      rewrite <- Pos.of_nat_succ. by rewrite Zpos_P_of_succ_nat, Nat2Z.inj_succ. }
    split.
    + unfold Qle. simpl. lia.
    + unfold Qlt. simpl. rewrite Epos. lia.
Qed.

Lemma fragmentation_bounded_witness :
  Qlt (get_fragmentation_ratio
         (run log2_ceil_exact (__init__ 1024) (Allocate "A" 0 false))).1 (1 # 2).
Proof.
  apply (fragmentation_bounded log2_ceil_exact).
  apply reachable_run, reachable_init.
Defined.

(** ** Requests that cannot be served *)

Lemma allocate_failure_state log2_ceil s name sz ub :
  (allocate log2_ceil s name sz ub).1.1.1 = false →
  (allocate log2_ceil s name sz ub).2 = s.
Proof.
  unfold allocate. destruct (process_map s !! Some name); [done|].
  by destruct (_find_best_fit s _).
Qed.

Lemma free_block_bounded a bs t b :
  chain a bs t → b ∈ bs → is_free b = true → size b ≤ free_of bs.
Proof.
  revert a. induction bs as [|b0 bs IH]; intros a Hch Hin Hfree.
  { by apply elem_of_nil in Hin. }
  destruct Hch as (_ & Hp & Hch). rewrite free_of_cons.
  assert (0 ≤ free_of bs) as Hnn.
  { clear -Hch. revert Hch. generalize (block_end b0).
    induction bs as [|c bs IH]; intros a; simpl.
    - intros _. by vm_compute.
    - intros (_ & Hp & H). rewrite free_of_cons. specialize (IH _ H).
      destruct (is_free c); lia. }
  apply elem_of_cons in Hin as [-> |Hin].
  - rewrite Hfree. lia.
  - specialize (IH _ Hch Hin Hfree). destruct (is_free b0); lia.
Qed.

(** X7.  In a state reached through sensible calls, a request for more than
    the free memory, and so any request for more than the capacity, fails
    and leaves the manager as it was. *)
Theorem allocate_beyond_free_fails (log2_ceil : Z → Z) (s : Manager)
    (name : string) (sz : Z) (use_buddy : bool) :
  reachable_sensibly log2_ceil s →
  get_free_memory s < actual_size log2_ceil sz use_buddy ∨
  total_memory s < actual_size log2_ceil sz use_buddy →
  (allocate log2_ceil s name sz use_buddy).1.1.1 = false ∧
  (allocate log2_ceil s name sz use_buddy).2 = s.
Proof.
  intros Hreach Hbig.
  assert (get_free_memory s < actual_size log2_ceil sz use_buddy) as Hlt.
  { destruct Hbig as [?|Htot]; [done|].
    destruct (memory_bounds log2_ceil s Hreach). lia. }
  apply sensible_invariant in Hreach as (_ & _ & Hch & _).
  assert ((allocate log2_ceil s name sz use_buddy).1.1.1 = false) as Hfail.
  { destruct ((allocate log2_ceil s name sz use_buddy).1.1.1) eqn:E; [|done].
    destruct (allocate_success_inv _ _ _ _ _ E) as (_ & i & b & (Hi & [Hfree Hle] & _) & _).
    assert (b ∈ layout s) as Hin by (by eapply list_elem_of_lookup_2).
    pose proof (free_block_bounded _ _ _ _ Hch Hin Hfree) as Hb.
    rewrite get_free_memory_layout in Hlt. lia. }
  split; [done | by apply allocate_failure_state].
Qed.

Lemma allocate_beyond_free_fails_witness :
  (allocate log2_ceil_exact (__init__ 1024) "Big" 2048 true).1.1.1 = false.
Proof.
  apply (allocate_beyond_free_fails log2_ceil_exact (__init__ 1024) "Big" 2048 true).
  - by apply sensibly_init.
  - right. by vm_compute.
Defined.

(** ** More on compaction *)

Lemma repack_repack a a' bs : repack a (repack a' bs) = repack a bs.
Proof.
  revert a a'. induction bs as [|b bs IH]; intros a a'; simpl; [done|].
  by rewrite IH.
Qed.

Lemma repack_sum a bs : sum_sizes (repack a bs) = sum_sizes bs.
Proof. revert a. induction bs as [|b bs IH]; intros a; simpl; [done|]. by rewrite IH. Qed.

Lemma filter_all {A} (P : A → Prop) `{∀ x, Decision (P x)} (l : list A) :
  Forall P l → filter P l = l.
Proof.
  induction 1 as [|x l Hx _ IH]; [done|].
  rewrite filter_cons, decide_True by done. by rewrite IH.
Qed.

Lemma filter_none {A} (P : A → Prop) `{∀ x, Decision (P x)} (l : list A) :
  Forall (λ x, ¬ P x) l → filter P l = [].
Proof.
  induction 1 as [|x l Hx _ IH]; [done|].
  by rewrite filter_cons, decide_False.
Qed.

(** The allocated blocks of a compacted layout are the repacked blocks. *)
Lemma compacted_allocated A (tail : list MemoryBlock) :
  Forall (λ b, is_free b = true) tail →
  filter (λ b, is_free b = false) (repack 0 A ++ tail) = repack 0 A.
Proof.
  intros Htail. rewrite filter_app.
  rewrite (filter_all _ _ (repack_all_allocated 0 A)).
  rewrite filter_none; [by rewrite app_nil_r|].
  eapply Forall_impl; [done|]. simpl. intros b Hb. congruence.
Qed.

Lemma compact_failure_state s : (compact s).1.1.1 = false → (compact s).2 = s.
Proof.
  unfold compact. destruct (allocated_refs _ _); [done|].
  by destruct (relocate _ _ _ _ _) as [[[? ?] ?] ?].
Qed.

Lemma trailing_free A t :
  Forall (λ b, is_free b = true)
    (if decide (sum_sizes A < t)
     then [Block (sum_sizes A) (t - sum_sizes A) true None] else []).
Proof. destruct (decide _); by repeat constructor. Qed.

(** X8.  Compacting twice is compacting once: the second [compact] returns
    what the first returned and leaves layout and capacity as they were. *)
Theorem compact_idempotent (s : Manager) :
  well_formed s →
  let s1 := (compact s).2 in
  (compact s1).1 = (compact s).1 ∧
  layout (compact s1).2 = layout s1 ∧
  total_memory (compact s1).2 = total_memory s1.
Proof.
  intros Hwf. cbv zeta.
  set (A := filter (λ b, is_free b = false) (layout s)).
  destruct (decide (A = [])) as [E|Hne].
  { apply allocated_refs_nil in E.
    assert (compact s = ((false, "No allocated blocks to compact", 0), s)) as Ec.
    { unfold compact. by rewrite E. }
    rewrite Ec. cbn [snd]. by rewrite Ec. }
  destruct (layout_compact s Hwf Hne) as (E1 & E2 & E3 & _). fold A in E1, E3.
  pose proof (well_formed_compact s Hwf) as Hwf1.
  assert (filter (λ b, is_free b = false) (layout (compact s).2) = repack 0 A) as EA1.
  { rewrite E3. apply compacted_allocated, trailing_free. }
  assert (repack 0 A ≠ []) as Hne1.
  { intros H. apply (f_equal length) in H. rewrite repack_length in H.
    by apply nil_length_inv in H. }
  destruct (layout_compact (compact s).2 Hwf1) as (F1 & F2 & F3 & _).
  { by rewrite EA1. }
  rewrite EA1 in F1, F3. rewrite repack_length in F1.
  rewrite repack_repack, repack_sum, E2 in F3.
  split; [by rewrite F1, E1|]. split; [by rewrite F3, E3 | done].
Qed.

Lemma compact_idempotent_witness :
  layout (compact (compact (run log2_ceil_exact (__init__ 1024)
                                (Allocate "A" 100 true))).2).2
  = layout (compact (run log2_ceil_exact (__init__ 1024) (Allocate "A" 100 true))).2.
Proof.
  apply (compact_idempotent (run log2_ceil_exact (__init__ 1024) (Allocate "A" 100 true))).
  apply well_formed_run, well_formed_init.
Defined.

Lemma dom_register_all pm names r :
  dom (register_all pm names r) = dom pm ∪ list_to_set names.
Proof.
  revert pm r. induction names as [|k names IH]; intros pm r; simpl.
  - by rewrite union_empty_r_L.
  - rewrite IH, dom_insert_L. apply set_eq. intros x.
    rewrite !elem_of_union. tauto.
Qed.

(** The registry after [compact] has the keys it had. *)
Lemma compact_names s :
  well_formed s → linked s →
  dom (process_map (compact s).2) = dom (process_map s).
Proof.
  intros Hwf Hl.
  set (A := filter (λ b, is_free b = false) (layout s)).
  destruct (decide (A = [])) as [E|Hne].
  { apply allocated_refs_nil in E. unfold compact. by rewrite E. }
  destruct (layout_compact s Hwf Hne) as (_ & _ & _ & -> & _). fold A.
  rewrite dom_register_all.
  assert (∀ k, k ∈ process_name <$> A → k ∈ dom (process_map s)) as Hsub.
  { intros k Hin. apply list_elem_of_fmap in Hin as (b & -> & Hb).
    apply list_elem_of_filter in Hb as [Hnf Hb].
    apply list_elem_of_lookup in Hb as [i Hi].
    destruct (layout_lookup_ref _ _ _ Hi) as (r & Hr & ->).
    destruct Hl as (_ & L2 & _). apply elem_of_dom.
    exists r. apply L2; [|done]. by eapply list_elem_of_lookup_2. }
  apply set_eq. intros k. rewrite elem_of_union, elem_of_list_to_set.
  split; [intros [?|?]; auto | auto].
Qed.

Lemma compact_used s :
  well_formed s → get_used_memory (compact s).2 = get_used_memory s.
Proof.
  intros Hwf.
  set (A := filter (λ b, is_free b = false) (layout s)).
  destruct (decide (A = [])) as [E|Hne].
  { apply allocated_refs_nil in E. unfold compact. by rewrite E. }
  destruct (layout_compact s Hwf Hne) as (_ & _ & El & _). fold A in El.
  unfold get_used_memory. rewrite El.
  rewrite compacted_allocated by apply trailing_free. by rewrite repack_sum.
Qed.

(** X9.  [compact] keeps every allocation: in a reachable state the used
    memory and the set of registered names are the same before and after,
    and so is the number of allocated blocks. *)
Theorem compact_preserves_allocations (log2_ceil : Z → Z) (s : Manager) :
  reachable log2_ceil s →
  get_used_memory (compact s).2 = get_used_memory s ∧
  dom (process_map (compact s).2) = dom (process_map s) ∧
  count_allocated (layout (compact s).2) = count_allocated (layout s).
Proof.
  intros H. apply reachable_well_formed_linked in H as [Hwf Hl].
  split; [by apply compact_used|]. split; [by apply compact_names|].
  set (A := filter (λ b, is_free b = false) (layout s)).
  destruct (decide (A = [])) as [E|Hne].
  { apply allocated_refs_nil in E. unfold compact. by rewrite E. }
  destruct (layout_compact s Hwf Hne) as (_ & _ & El & _). fold A in El.
  rewrite <- !count_allocated_filter, El.
  rewrite compacted_allocated by apply trailing_free. by rewrite repack_length.
Qed.

Lemma compact_preserves_allocations_witness :
  get_used_memory
    (compact (run log2_ceil_exact (__init__ 1024) (Allocate "A" 100 true))).2
  = get_used_memory (run log2_ceil_exact (__init__ 1024) (Allocate "A" 100 true)).
Proof.
  apply (compact_preserves_allocations log2_ceil_exact).
  apply reachable_run, reachable_init.
Defined.

Lemma ratio_nonnegative s : Qle 0 (get_fragmentation_ratio s).1.
Proof.
  unfold get_fragmentation_ratio.
  destruct (Nat.leb_spec (length (filter (λ b, is_free b = true) (layout s))) 1);
    simpl; [apply Qle_refl|]. unfold Qle. simpl. lia.
Qed.

(** X10.  [compact] never raises the fragmentation ratio, and after a
    successful [compact] the ratio is 0. *)
Theorem compact_defragments (s : Manager) :
  well_formed s →
  Qle (get_fragmentation_ratio (compact s).2).1 (get_fragmentation_ratio s).1 ∧
  ((compact s).1.1.1 = true → (get_fragmentation_ratio (compact s).2).1 = 0%Q).
Proof.
  intros Hwf.
  set (A := filter (λ b, is_free b = false) (layout s)).
  destruct (decide (A = [])) as [E|Hne].
  { apply allocated_refs_nil in E.
    assert (compact s = ((false, "No allocated blocks to compact", 0), s)) as ->.
    { unfold compact. by rewrite E. }
    split; [apply Qle_refl | done]. }
  destruct (layout_compact s Hwf Hne) as (_ & _ & El & _). fold A in El.
  assert ((get_fragmentation_ratio (compact s).2).1 = 0%Q) as Hzero.
  { unfold get_fragmentation_ratio. rewrite count_free_filter, El, count_free_app.
    rewrite (count_free_allocated _ (repack_all_allocated 0 A)).
    destruct (decide (sum_sizes A < total_memory s)); done. }
  split; [|done]. rewrite Hzero. apply ratio_nonnegative.
Qed.

Lemma compact_defragments_witness :
  (get_fragmentation_ratio
     (compact (run log2_ceil_exact (__init__ 1024) (Allocate "A" 100 true))).2).1
  = 0%Q.
Proof.
  apply (compact_defragments (run log2_ceil_exact (__init__ 1024) (Allocate "A" 100 true))).
  - apply well_formed_run, well_formed_init.
  - reflexivity.
Defined.





(** ** The registry counts the allocated blocks *)

Lemma allocated_refs_count h refs :
  length (allocated_refs h refs) = count_allocated (layout_of h refs).
Proof.
  rewrite <- count_allocated_filter, <- allocated_refs_layout.
  by rewrite layout_of_length.
Qed.

(** X12.  In a reachable state the number of registered names, which
    [get_status] reports as [active_processes], is the number of allocated
    blocks. *)
Theorem active_processes_count (log2_ceil : Z → Z) (s : Manager) :
  reachable log2_ceil s →
  active_processes s = count_allocated (layout s).
Proof.
  intros H. apply reachable_well_formed_linked in H as [[Hnd Hval] (L1 & L2 & L3)].
  set (R := allocated_refs (objects s) (blocks s)).
  set (kv := (λ r, (process_name (objects s !!! r), r)) <$> R).
  assert (∀ r, r ∈ R ↔ r ∈ blocks s ∧ is_free (objects s !!! r) = false) as HR.
  { intros r. unfold R, allocated_refs. rewrite list_elem_of_filter. tauto. }
  assert (NoDup R) as HndR by (by apply NoDup_filter).
  assert (NoDup kv.*1) as Hkeys.
  { unfold kv. rewrite <- list_fmap_compose.
    apply NoDup_fmap_2_strong; [|done].
    intros r r' Hr Hr' Heq. simpl in Heq.
    apply HR in Hr as [Hin Hnf]. apply HR in Hr' as [Hin' Hnf'].
    destruct (L2 _ Hin Hnf) as [Hp _]. destruct (L2 _ Hin' Hnf') as [Hp' _].
    rewrite Heq in Hp. congruence. }
  assert (process_map s = list_to_map kv) as Epm.
  { apply map_eq. intros k. destruct (process_map s !! k) as [r|] eqn:Ek.
    - symmetry. apply elem_of_list_to_map_1; [done|].
      destruct (L1 _ _ Ek) as (Hin & Hnf & Hname).
      apply list_elem_of_fmap. exists r. split; [by rewrite Hname|]. by apply HR.
    - symmetry. apply not_elem_of_list_to_map_1. intros Hin.
      apply list_elem_of_fmap in Hin as ([k' r] & -> & Hin).
      apply list_elem_of_fmap in Hin as (r' & [= -> ->] & Hr').
      apply HR in Hr' as [Hin Hnf]. destruct (L2 _ Hin Hnf) as [Hp _].
      simpl in Ek. congruence. }
  unfold active_processes. rewrite Epm, map_size_list_to_map by done.
  unfold kv. rewrite length_fmap. apply allocated_refs_count.
Qed.

Lemma active_processes_count_witness :
  active_processes (run log2_ceil_exact (__init__ 1024) (Allocate "A" 100 true))
  = count_allocated
      (layout (run log2_ceil_exact (__init__ 1024) (Allocate "A" 100 true))).
Proof.
  apply (active_processes_count log2_ceil_exact).
  apply reachable_run, reachable_init.
Defined.

(** ** The merging pass on its own *)

Lemma well_formed_merge s : well_formed s → well_formed (_merge_free_blocks s).
Proof.
  intros Hwf. destruct (merge_free_blocks_spec s Hwf) as (h' & out & -> & Hres).
  destruct Hwf as [Hnd Hval]. destruct Hres as [_ Hlen Hsub _ _ _ _].
  by apply (well_formed_sublist (objects s) (blocks s)).
Qed.

Lemma layout_merge s :
  well_formed s → layout (_merge_free_blocks s) = coalesce (layout s).
Proof.
  intros Hwf. destruct (merge_free_blocks_spec s Hwf) as (h' & out & -> & Hres).
  by destruct Hres.
Qed.

(** X13.  [_merge_free_blocks] collapses every run of free blocks and does
    nothing else: afterwards no two neighbours are free, the allocated
    blocks, the used and the free memory are what they were, and a second
    pass changes nothing in the layout. *)
Theorem merge_free_blocks_idempotent (s : Manager) :
  well_formed s →
  let s1 := _merge_free_blocks s in
  no_adjacent_free (layout s1) ∧
  filter (λ b, is_free b = false) (layout s1)
    = filter (λ b, is_free b = false) (layout s) ∧
  get_used_memory s1 = get_used_memory s ∧
  get_free_memory s1 = get_free_memory s ∧
  (length (blocks s1) ≤ length (blocks s))%nat ∧
  layout (_merge_free_blocks s1) = layout s1.
Proof.
  intros Hwf. cbv zeta.
  pose proof (layout_merge s Hwf) as El.
  pose proof (well_formed_merge s Hwf) as Hwf1.
  split; [rewrite El; apply coalesced_no_adjacent_free, coalesce_coalesced|].
  split; [by rewrite El, coalesce_allocated_part|].
  split; [by rewrite !get_used_memory_layout, El, coalesce_used|].
  split; [by rewrite !get_free_memory_layout, El, coalesce_free|].
  split.
  - destruct (merge_free_blocks_spec s Hwf) as (h' & out & -> & [_ _ Hsub _ _ _ _]).
    simpl. by apply sublist_length.
  - rewrite (layout_merge _ Hwf1), El.
    apply coalesce_fixed, coalesce_coalesced.
Qed.

Lemma merge_free_blocks_idempotent_witness :
  layout (_merge_free_blocks two_free_runs)
    = [Block 0 30 true None; Block 30 5 false (Some "A"); Block 35 65 true None] ∧
  no_adjacent_free (layout (_merge_free_blocks two_free_runs)) ∧
  filter (λ b, is_free b = false) (layout (_merge_free_blocks two_free_runs))
    = [Block 30 5 false (Some "A")] ∧
  get_free_memory (_merge_free_blocks two_free_runs) = 95 ∧
  layout (_merge_free_blocks (_merge_free_blocks two_free_runs))
    = layout (_merge_free_blocks two_free_runs).
Proof.
  assert (well_formed two_free_runs) as Hwf.
  { split.
    - apply (NoDup_seq 0 6).
    - repeat constructor. }
  destruct (merge_free_blocks_idempotent two_free_runs Hwf)
    as (Hadj & Halloc & _ & Hfree & _ & Hfix).
  split; [reflexivity|]. split; [exact Hadj|].
  split; [rewrite Halloc; reflexivity|].
  split; [rewrite Hfree; reflexivity|]. exact Hfix.
Defined.

(** ** How many blocks an allocation adds *)

Lemma pieces_length name asz b :
  length (pieces name asz b) = if decide (size b = asz) then 1%nat else 2%nat.
Proof. unfold pieces. by destruct (decide _). Qed.

(** X14.  A successful [allocate] adds no block when some free block has
    exactly the reserved size (best fit then takes such a block whole), and
    adds exactly one block otherwise. *)
Theorem allocate_block_count (log2_ceil : Z → Z) (s : Manager) (name : string)
    (sz : Z) (use_buddy : bool) :
  well_formed s →
  (allocate log2_ceil s name sz use_buddy).1.1.1 = true →
  let asz := actual_size log2_ceil sz use_buddy in
  let s' := (allocate log2_ceil s name sz use_buddy).2 in
  ((∃ b, b ∈ layout s ∧ is_free b = true ∧ size b = asz) →
     length (blocks s') = length (blocks s)) ∧
  (¬ (∃ b, b ∈ layout s ∧ is_free b = true ∧ size b = asz) →
     length (blocks s') = S (length (blocks s))).
Proof.
  intros Hwf Hok. cbv zeta.
  destruct (allocate_success_inv _ _ _ _ _ Hok) as (_ & i & b & Hbest & ->).
  cbn [snd]. destruct Hbest as (Hi & [Hfree Hle] & Hmin).
  set (asz := actual_size log2_ceil sz use_buddy) in *.
  assert (length (blocks (place s name asz i)) =
          (length (blocks s) + length (pieces name asz b) - 1)%nat) as Hlen.
  { rewrite <- !layout_length, (layout_place s name asz i b Hwf Hi Hle).
    rewrite !length_app, length_take, length_drop.
    apply lookup_lt_Some in Hi. pose proof (pieces_length name asz b).
    destruct (decide (size b = asz)); lia. }
  rewrite Hlen, pieces_length. split.
  - intros (b' & Hin & Hfree' & Hsize).
    apply list_elem_of_lookup in Hin as [j Hj].
    destruct (Hmin j b' Hj) as [Hmin' _]; [split; [done | lia]|].
    rewrite decide_True by lia. lia.
  - intros Hno. rewrite decide_False; [lia|].
    intros E. apply Hno. exists b. split; [by eapply list_elem_of_lookup_2 | done].
Qed.

Lemma allocate_block_count_witness :
  length (blocks (allocate log2_ceil_exact (__init__ 1024) "All" 1024 false).2)
  = length (blocks (__init__ 1024)).
Proof.
  apply (allocate_block_count log2_ceil_exact (__init__ 1024) "All" 1024 false).
  - apply well_formed_init.
  - reflexivity.
  - exists (Block 0 1024 true None). split; [left | done].
Defined.

(** * The workload simulation *)

Lemma total_memory_place s name asz i :
  total_memory (place s name asz i) = total_memory s.
Proof. unfold place. by destruct (_ <? _). Qed.

Lemma total_memory_merge s : total_memory (_merge_free_blocks s) = total_memory s.
Proof.
  unfold _merge_free_blocks. destruct (_ <=? _)%nat; [done|].
  by destruct (merge_loop _ _ _ _).
Qed.

(** Only [reset] changes the capacity. *)
Lemma total_memory_run log2_ceil s c :
  (∀ n, c ≠ Reset n) → total_memory (run log2_ceil s c) = total_memory s.
Proof.
  intros Hc. destruct c as [name sz ub|name| |n]; cbn [run].
  - unfold allocate. destruct (process_map s !! Some name); [done|].
    destruct (_find_best_fit s _); [|done]. apply total_memory_place.
  - unfold deallocate. destruct (process_map s !! Some name); [|done].
    cbn [snd]. by rewrite total_memory_merge.
  - unfold compact. destruct (allocated_refs _ _); [done|].
    destruct (relocate _ _ _ _ _) as [[[? ?] ?] ?]. cbn [snd].
    by destruct (0 <? _).
  - by destruct (Hc n).
Qed.

Lemma total_memory_apply log2_ceil m op :
  total_memory (apply_operation log2_ceil m op) = total_memory m.
Proof.
  unfold apply_operation. destruct op; simpl call_of; try done;
    apply total_memory_run; intros n; done.
Qed.


Lemma last_cons_default {A} (d x : A) (l : list A) :
  default d (last (x :: l)) = default x (last l).
Proof.
  revert d x. induction l as [|y l IH]; intros d x; [done|].
  rewrite last_cons_cons. by rewrite (IH d y), (IH x y).
Qed.

Lemma states_after_last log2_ceil m ops :
  foldl (apply_operation log2_ceil) m ops
    = default m (last (states_after log2_ceil m ops)).
Proof.
  revert m. induction ops as [|op ops IH]; intros m; [done|].
  cbn [foldl states_after]. by rewrite IH, last_cons_default.
Qed.

Lemma count_outcome_series stats op ok :
  used_memory (count_outcome stats op ok) = used_memory stats ∧
  free_memory (count_outcome stats op ok) = free_memory stats ∧
  fragmentation (count_outcome stats op ok) = fragmentation stats ∧
  blocks_count (count_outcome stats op ok) = blocks_count stats ∧
  operations (count_outcome stats op ok) = operations stats.
Proof. by destruct op, ok. Qed.

Lemma count_outcome_counters stats op ok :
  (successful_allocations (count_outcome stats op ok)
     + failed_allocations (count_outcome stats op ok)
   = successful_allocations stats + failed_allocations stats
     + (if is_allocation op then 1 else 0))%nat ∧
  (deallocations stats ≤ deallocations (count_outcome stats op ok)
     ≤ deallocations stats + (if is_deallocation op then 1 else 0))%nat ∧
  (compactions stats ≤ compactions (count_outcome stats op ok)
     ≤ compactions stats + (if is_compaction op then 1 else 0))%nat.
Proof. destruct op, ok; simpl; lia. Qed.

(** The loop of [simulate_workload] from any intermediate point. *)
Lemma simulate_loop log2_ceil ops :
  ∀ m stats k,
    let res := foldl (simulate_step log2_ceil) (m, stats)
                     (zip (seq k (length ops)) ops) in
    res.1 = foldl (apply_operation log2_ceil) m ops ∧
    used_memory res.2 =
      used_memory stats ++ (get_used_memory <$> states_after log2_ceil m ops) ∧
    free_memory res.2 =
      free_memory stats ++ (get_free_memory <$> states_after log2_ceil m ops) ∧
    fragmentation res.2 =
      fragmentation stats ++
      ((λ s, Qmult (get_fragmentation_ratio s).1 (inject_Z 100))
         <$> states_after log2_ceil m ops) ∧
    blocks_count res.2 =
      blocks_count stats ++
      ((λ s, length (blocks s)) <$> states_after log2_ceil m ops) ∧
    operations res.2 = operations stats ++ seq k (length ops) ∧
    (successful_allocations res.2 + failed_allocations res.2
     = successful_allocations stats + failed_allocations stats
       + length (filter (λ op, is_allocation op = true) ops))%nat ∧
    (deallocations stats ≤ deallocations res.2
     ≤ deallocations stats + length (filter (λ op, is_deallocation op = true) ops))%nat ∧
    (compactions stats ≤ compactions res.2
     ≤ compactions stats + length (filter (λ op, is_compaction op = true) ops))%nat.
Proof.
  induction ops as [|op ops IH]; intros m stats k.
  { simpl. rewrite !app_nil_r. repeat split; lia. }
  cbn [length seq zip zip_with foldl]. cbv zeta.
  assert ((simulate_step log2_ceil (m, stats) (k, op)).1
          = apply_operation log2_ceil m op) as E1.
  { unfold simulate_step, apply_operation. by destruct (call_of op). }
  destruct (simulate_step log2_ceil (m, stats) (k, op)) as [m1 st1] eqn:Eacc.
  simpl in E1. subst m1.
  set (m1 := apply_operation log2_ceil m op) in *.
  assert (∃ st0,
            st1 = record_state st0 m1 k ∧
            used_memory st0 = used_memory stats ∧
            free_memory st0 = free_memory stats ∧
            fragmentation st0 = fragmentation stats ∧
            blocks_count st0 = blocks_count stats ∧
            operations st0 = operations stats ∧
            (successful_allocations st0 + failed_allocations st0
             = successful_allocations stats + failed_allocations stats
               + (if is_allocation op then 1 else 0))%nat ∧
            (deallocations stats ≤ deallocations st0
             ≤ deallocations stats + (if is_deallocation op then 1 else 0))%nat ∧
            (compactions stats ≤ compactions st0
             ≤ compactions stats + (if is_compaction op then 1 else 0))%nat)
    as (st0 & -> & U & F & G & B & O & C1 & C2 & C3).
  { unfold simulate_step in Eacc. unfold m1, apply_operation.
    destruct (call_of op) as [c|] eqn:Ec.
    - injection Eacc as <-.
      exists (count_outcome stats op (succeeded log2_ceil m c)).
      split; [done|].
      destruct (count_outcome_series stats op (succeeded log2_ceil m c))
        as (? & ? & ? & ? & ?).
      destruct (count_outcome_counters stats op (succeeded log2_ceil m c))
        as (? & ? & ?).
      done.
    - injection Eacc as <-. exists stats. split; [done|].
      destruct op; try done. simpl. repeat split; lia. }
  destruct (IH m1 (record_state st0 m1 k) (S k))
    as (I1 & I2 & I3 & I4 & I5 & I6 & I7 & I8 & I9).
  cbv zeta in *. cbn [states_after fmap list_fmap foldl]. fold m1.
  rewrite I1, I2, I3, I4, I5, I6. cbn [record_state used_memory free_memory
    fragmentation blocks_count operations successful_allocations
    failed_allocations deallocations compactions] in *.
  rewrite U, F, G, B, O, <- !app_assoc. do 6 (split; [done|]).
  rewrite !filter_cons.
  destruct op; simpl in *;
    repeat (rewrite decide_True by done); repeat (rewrite decide_False by done);
    simpl; repeat split; lia.
Qed.


Lemma states_after_sensible log2_ceil m ops :
  (∀ n, 0 < n → 0 ≤ log2_ceil n) → reachable_sensibly log2_ceil m →
  Forall (λ s, reachable_sensibly log2_ceil s ∧ total_memory s = total_memory m)
         (states_after log2_ceil m ops).
Proof.
  intros Hlog. revert m. induction ops as [|op ops IH]; intros m Hm; [constructor|].
  simpl. assert (reachable_sensibly log2_ceil (apply_operation log2_ceil m op)) as Hm'.
  { unfold apply_operation. destruct op; simpl call_of; try done.
    - apply sensibly_run; [done|]. apply sensible_allocate; [done | by left].
    - by apply sensibly_run.
    - by apply sensibly_run. }
  constructor; [split; [done | apply total_memory_apply]|].
  eapply Forall_impl; [by apply IH|]. simpl. intros s [? ->].
  split; [done | apply total_memory_apply].
Qed.

(** X16.  When the manager handed to [simulate_workload] was reached from a
    positive capacity through sensible calls, and the logarithm is never
    negative, every recorded pair of used and free memory adds up to the
    capacity, whatever the workload. *)
Theorem simulate_workload_conserves (log2_ceil : Z → Z) (m : Manager)
    (ops : list Operation) :
  (∀ n, 0 < n → 0 ≤ log2_ceil n) → reachable_sensibly log2_ceil m →
  let stats := (simulate_workload log2_ceil m ops).2 in
  Forall2 (λ used free, used + free = total_memory m ∧ 0 ≤ used ∧ 0 ≤ free)
          (used_memory stats) (free_memory stats) ∧
  total_memory (simulate_workload log2_ceil m ops).1 = total_memory m.
Proof.
  intros Hlog Hm. cbv zeta. unfold simulate_workload, enumerate.
  destruct (simulate_loop log2_ceil ops m empty_stats 0) as (I1 & I2 & I3 & _).
  cbv zeta in *. simpl in I2, I3. rewrite I1, I2, I3. split.
  - apply Forall2_fmap, Forall_Forall2_diag.
    eapply Forall_impl; [by apply states_after_sensible|].
    simpl. intros s [Hs <-]. by apply (memory_bounds log2_ceil).
  - clear. revert m. induction ops as [|op ops IH]; intros m; [done|].
    simpl. by rewrite IH, total_memory_apply.
Qed.

Lemma simulate_workload_conserves_witness :
  total_memory
    (simulate_workload log2_ceil_exact (__init__ 2048)
       [op_allocate "P0" 100; op_compact; op_deallocate "P0"]).1
  = total_memory (__init__ 2048).
Proof.
  apply (simulate_workload_conserves log2_ceil_exact (__init__ 2048)
           [op_allocate "P0" 100; op_compact; op_deallocate "P0"]).
  - intros n _. apply Z.log2_up_nonneg.
  - by apply sensibly_init.
Defined.

(** * The service layer *)

Lemma serve_initialized log2_ceil m r :
  ∃ body m', api.serve log2_ceil (Some m) r = (api.Served body, Some m') ∧
    match api.call_of_request r with
    | Some c => m' = run log2_ceil m c ∧ api.success body = succeeded log2_ceil m c
    | None => ∀ total, r = api.post_initialize total → m' = __init__ total
    end.
Proof.
  destruct r as [total|name sz ub|name| |total]; simpl.
  - eexists _, _. split; [done|]. by intros ? [= ->].
  - unfold api.allocate_process.
    destruct (allocate log2_ceil m name sz ub) as [[[ok msg] addr] m'] eqn:E.
    eexists _, _. done.
  - unfold api.deallocate_process.
    destruct (deallocate m name) as [[ok msg] m'] eqn:E.
    eexists _, _. done.
  - unfold api.compact_memory.
    destruct (compact m) as [[[ok msg] moved] m'] eqn:E.
    eexists _, _. done.
  - eexists _, _. done.
Qed.

(** X17.  On the five [POST] routes, a request that meets the constraints
    of its request model is refused by its handler exactly when no manager
    has been initialized and the route is not [/initialize]; the refusal has
    status 400 and leaves the service uninitialized.  Once a manager exists
    every such request is served, none makes the manager disappear, and a
    failure of the engine comes back in the body ([success] false), not as
    an error. *)
Theorem service_refuses_uninitialized (log2_ceil : Z → Z)
    (memory_manager : option Manager) (r : api.Request) :
  api.accepted r →
  ((∃ code detail, (api.serve log2_ceil memory_manager r).1
                     = api.HTTPException code detail) ↔
   memory_manager = None ∧ api.call_of_request r ≠ None) ∧
  (∀ code detail,
     (api.serve log2_ceil memory_manager r).1 = api.HTTPException code detail →
     code = 400 ∧ (api.serve log2_ceil memory_manager r).2 = None) ∧
  (∀ m, memory_manager = Some m →
     ∃ body m', api.serve log2_ceil memory_manager r = (api.Served body, Some m') ∧
       ∀ c, api.call_of_request r = Some c →
            m' = run log2_ceil m c ∧ api.success body = succeeded log2_ceil m c).
Proof.
  intros _. split; [|split].
  - split.
    + intros (code & detail & H). destruct memory_manager as [m|].
      * destruct (serve_initialized log2_ceil m r) as (body & m' & E & _).
        by rewrite E in H.
      * split; [done|]. by destruct r.
    + intros [-> Hr]. destruct r; simpl in *; try done; by eexists _, _.
  - intros code detail H. destruct memory_manager as [m|].
    + destruct (serve_initialized log2_ceil m r) as (body & m' & E & _).
      by rewrite E in H.
    + destruct r; simpl in *; try done; by injection H as <- _.
  - intros m ->. destruct (serve_initialized log2_ceil m r) as (body & m' & E & H).
    exists body, m'. split; [done|]. intros c Hc. by rewrite Hc in H.
Qed.

Lemma service_refuses_uninitialized_witness :
  (api.serve log2_ceil_exact None (api.post_allocate "A" 100 true)).1
    = api.HTTPException 400 "Memory not initialized. Call /initialize first." ∧
  (api.serve log2_ceil_exact None (api.post_allocate "A" 100 true)).2 = None ∧
  ∃ body m',
    api.serve log2_ceil_exact (Some (__init__ 64)) (api.post_allocate "A" 100 true)
      = (api.Served body, Some m') ∧
    api.success body = false ∧
    m' = run log2_ceil_exact (__init__ 64) (Allocate "A" 100 true).
Proof.
  assert (api.accepted (api.post_allocate "A" 100 true)) as Hacc.
  { split; [done | lia]. }
  destruct (service_refuses_uninitialized log2_ceil_exact None
              (api.post_allocate "A" 100 true) Hacc) as ((_ & Hrefused) & Hcode & _).
  destruct Hrefused as (code & detail & E); [done|].
  destruct (Hcode code detail E) as [-> Hnone].
  destruct (service_refuses_uninitialized log2_ceil_exact (Some (__init__ 64))
              (api.post_allocate "A" 100 true) Hacc) as (_ & _ & Hserved).
  destruct (Hserved (__init__ 64) eq_refl) as (body & m' & E' & Hcall).
  destruct (Hcall (Allocate "A" 100 true) eq_refl) as [Hm' Hok].
  split; [|split].
  - reflexivity.
  - done.
  - exists body, m'. split; [done|]. split; [|done].
    rewrite Hok. by vm_compute.
Defined.

Lemma accepted_sensible log2_ceil r c :
  (∀ n, 0 < n → 0 ≤ log2_ceil n) → api.accepted r →
  (∀ n, r = api.post_reset (Some n) → 0 ≤ n) →
  api.call_of_request r = Some c → sensible log2_ceil c.
Proof.
  intros Hlog Hacc Hreset Hc. destruct r as [total|name sz ub|name| |total];
    simpl in *; try done; injection Hc as <-; try done.
  - apply sensible_allocate; [done | right; by destruct Hacc].
  - destruct total as [n|]; [|done]. by apply Hreset.
Qed.

Lemma serve_all_sensible log2_ceil rs :
  (∀ n, 0 < n → 0 ≤ log2_ceil n) →
  Forall api.accepted rs →
  Forall (λ r, ∀ n, r = api.post_reset (Some n) → 0 ≤ n) rs →
  ∀ mm, (∀ m, mm = Some m → reachable_sensibly log2_ceil m) →
        ∀ m, api.serve_all log2_ceil mm rs = Some m →
             reachable_sensibly log2_ceil m.
Proof.
  intros Hlog Hacc. induction Hacc as [|r rs Hr _ IH]; intros Hres mm Hmm m.
  { simpl. by apply Hmm. }
  apply Forall_cons in Hres as [Hr' Hres]. unfold api.serve_all. cbn [foldl].
  apply (IH Hres). clear m. intros m' Hm'.
  destruct mm as [m|].
  - destruct (serve_initialized log2_ceil m r) as (body & m1 & E & H).
    rewrite E in Hm'. simpl in Hm'. injection Hm' as ->.
    destruct (api.call_of_request r) as [c|] eqn:Ec.
    + destruct H as [-> _]. apply sensibly_run; [by apply Hmm|].
      by eapply accepted_sensible.
    + destruct r; simpl in Ec; try done. rewrite (H total eq_refl).
      by apply sensibly_init.
  - destruct r; simpl in Hm'; try done. injection Hm' as <-.
    by apply sensibly_init.
Qed.

(** X18.  Through the service the block-list invariant holds, and memory is
    conserved, after any sequence of requests that meet the constraints of
    their request models, provided [/reset] is never given a negative
    capacity (which nothing in the service checks) and the logarithm is
    never negative. *)
Theorem service_keeps_invariant (log2_ceil : Z → Z) (rs : list api.Request)
    (m : Manager) :
  (∀ n, 0 < n → 0 ≤ log2_ceil n) →
  Forall api.accepted rs →
  Forall (λ r, ∀ n, r = api.post_reset (Some n) → 0 ≤ n) rs →
  api.serve_all log2_ceil None rs = Some m →
  block_invariant m ∧
  get_used_memory m + get_free_memory m = total_memory m.
Proof.
  intros Hlog Hacc Hres Hm.
  assert (reachable_sensibly log2_ceil m) as Hreach.
  { by apply (serve_all_sensible log2_ceil rs Hlog Hacc Hres None). }
  split.
  - apply sensible_invariant in Hreach as (_ & Hpos & Hch & Hco).
    by apply block_invariant_of_chain.
  - by apply (memory_bounds log2_ceil).
Qed.

Lemma service_keeps_invariant_witness :
  ∃ m, api.serve_all log2_ceil_exact None
         [api.post_initialize 1024; api.post_allocate "A" 100 true;
          api.post_reset None] = Some m ∧
       block_invariant m.
Proof.
  eexists. split; [reflexivity|].
  apply (service_keeps_invariant log2_ceil_exact
           [api.post_initialize 1024; api.post_allocate "A" 100 true;
            api.post_reset None]).
  - intros n _. apply Z.log2_up_nonneg.
  - repeat constructor; done.
  - repeat constructor; done.
  - reflexivity.
Defined.

(** * What a call does to the other processes *)

Lemma coalesce_keeps_allocated bs b :
  is_free b = false → b ∈ coalesce bs ↔ b ∈ bs.
Proof.
  intros Hb.
  assert (∀ l : list MemoryBlock, b ∈ l ↔ b ∈ filter (λ b, is_free b = false) l) as Hf.
  { intros l. rewrite list_elem_of_filter. tauto. }
  by rewrite (Hf (coalesce bs)), coalesce_allocated_part, <- Hf.
Qed.

(** X19.  Neither [allocate] nor [deallocate] touches the block of another
    process: in a reachable state every allocated block is still in the
    layout, with its address, size and owner, after any [allocate], and
    after any [deallocate] of a different name. *)
Theorem other_blocks_untouched (log2_ceil : Z → Z) (s : Manager)
    (b : MemoryBlock) :
  reachable log2_ceil s → b ∈ layout s → is_free b = false →
  (∀ name sz use_buddy, b ∈ layout (allocate log2_ceil s name sz use_buddy).2) ∧
  (∀ name, process_name b ≠ Some name → b ∈ layout (deallocate s name).2).
Proof.
  intros Hreach Hin Hnf.
  apply reachable_well_formed_linked in Hreach as [Hwf Hl]. split.
  - intros name sz ub.
    destruct ((allocate log2_ceil s name sz ub).1.1.1) eqn:E.
    + destruct (allocate_success_inv _ _ _ _ _ E) as (_ & i & b0 & Hbest & ->).
      cbn [snd]. destruct Hbest as (Hi & [Hfree Hle] & _).
      rewrite (layout_place s name _ i b0 Hwf Hi Hle).
      rewrite <- (take_drop_middle _ _ _ Hi) in Hin.
      rewrite !elem_of_app in *. rewrite elem_of_cons in Hin.
      destruct Hin as [?|[-> |?]]; [by auto | congruence | by auto].
    + by rewrite allocate_failure_state.
  - intros name Hname.
    destruct (process_map s !! Some name) as [r0|] eqn:E.
    + destruct (layout_deallocate s name Hwf) as (_ & _ & _ & -> & _).
      { by rewrite E. }
      apply coalesce_keeps_allocated; [done|].
      assert (∃ b1, b1 ∈ layout s ∧ owned_by name b1) as Hex.
      { destruct Hl as (L1 & _ & _). destruct (L1 _ _ E) as (Hr & Hnf0 & Hn0).
        exists (objects s !!! r0). split; [|done].
        apply list_elem_of_lookup in Hr as [i Hi].
        eapply list_elem_of_lookup_2. by apply layout_ref. }
      destruct (free_first_of_split name _ Hex) as (pre & b1 & post & Es & Hown & ->).
      rewrite Es in Hin. rewrite !elem_of_app in *.
      rewrite elem_of_cons in Hin |- *.
      destruct Hin as [?|[-> |?]]; [by auto | | by auto].
      destruct Hown as [_ Hown]. congruence.
    + unfold deallocate. by rewrite E.
Qed.

Lemma other_blocks_untouched_witness :
  Block 0 128 false (Some "A")
    ∈ layout (allocate log2_ceil_exact
                (run log2_ceil_exact (__init__ 1024) (Allocate "A" 100 true))
                "B" 10 false).2.
Proof.
  apply (other_blocks_untouched log2_ceil_exact
           (run log2_ceil_exact (__init__ 1024) (Allocate "A" 100 true))).
  - apply reachable_run, reachable_init.
  - vm_compute. left.
  - reflexivity.
Defined.

(** X20.  In a state reached through sensible calls, the block a successful
    [allocate] hands out lies inside the memory: it starts at the returned
    address, has exactly the reserved size, belongs to the name, and ends no
    later than the capacity. *)
Theorem allocate_in_bounds (log2_ceil : Z → Z) (s : Manager) (name : string)
    (sz : Z) (use_buddy : bool) :
  reachable_sensibly log2_ceil s →
  (allocate log2_ceil s name sz use_buddy).1.1.1 = true →
  ∃ a, (allocate log2_ceil s name sz use_buddy).1.2 = Some a ∧
       0 ≤ a ∧ a + actual_size log2_ceil sz use_buddy ≤ total_memory s ∧
       Block a (actual_size log2_ceil sz use_buddy) false (Some name)
         ∈ layout (allocate log2_ceil s name sz use_buddy).2.
Proof.
  intros Hreach Hok.
  apply sensible_invariant in Hreach as (Hwf & _ & Hch & _).
  destruct (allocate_success_inv _ _ _ _ _ Hok) as (_ & i & b & Hbest & ->).
  cbn [fst snd]. destruct Hbest as (Hi & [Hfree Hle] & _).
  exists (start b). split; [done|].
  assert (b ∈ layout s) as Hin by (by eapply list_elem_of_lookup_2).
  destruct (chain_start_bound _ _ _ _ Hch Hin) as (H0 & _ & Hend).
  unfold block_end in Hend. split; [done|]. split; [lia|].
  rewrite (layout_place s name _ i b Hwf Hi Hle).
  apply elem_of_app. right. apply elem_of_app. left.
  unfold pieces. destruct (decide _); left.
Qed.

Lemma allocate_in_bounds_witness :
  ∃ a, (allocate log2_ceil_exact (__init__ 1024) "A" 100 true).1.2 = Some a ∧
       0 ≤ a ∧ a + 128 ≤ 1024.
Proof.
  destruct (allocate_in_bounds log2_ceil_exact (__init__ 1024) "A" 100 true)
    as (a & Ha & H0 & Hend & _).
  - by apply sensibly_init.
  - reflexivity.
  - exists a. repeat split; done.
Defined.
